(** * Palette extraction and categorisation (css-mimic/scripts/analyze_colors.py)

    A shallow embedding of the colour helpers, the categoriser, the CSS
    emitter and the file-writing part of [main], followed by the properties
    the specification states about them.

    Conventions of the embedding:
    - a colour is the Python tuple [(r, g, b)] of integers, here [Z * Z * Z];
    - the saturation test of the categoriser is carried out in binary64, with
      the kernel's primitive floats: integer true division of two integers
      below 2^53 is the IEEE division of their exact conversions;
    - relative luminance needs the power function of the C library, which
      cannot be evaluated here. [get_luminance] is the formula in exact real
      arithmetic ([Rpower]); it serves the statements about the emitter,
      which depend on the order of the luminances only. [get_luminance64] is
      the computation in binary64 with the C library's [pow] as an argument;
      the statement about the values of the luminance is about it;
    - [extract_palette] calls PIL and scikit-learn; [main] takes it as an
      argument, a function that raises, returns [None] or returns colours;
      [extract_palette] itself is embedded with the three library calls as
      arguments;
    - [main] is the function with every file operation going through;
      [run_script] is the process, with [print] statements and file
      operations that can fail. *)

From Stdlib Require Import ZArith List String Ascii Bool Lia.
From Stdlib Require Import Floats Uint63.
From Stdlib Require Import Permutation Sorted.
From Stdlib Require Import DecimalString HexadecimalString.
From Stdlib Require DecimalNat.
From Stdlib Require Import Reals Lra.
Import ListNotations.

Set Warnings "-inexact-float".

Local Open Scope Z_scope.

(** ** Colours *)

Definition color : Type := (Z * Z * Z)%type.

Definition red (rgb : color) : Z := fst (fst rgb).
Definition green (rgb : color) : Z := snd (fst rgb).
Definition blue (rgb : color) : Z := snd rgb.

(** The channel range of a colour that comes out of [extract_palette]:
    centroids of 8-bit pixels, truncated to integers. *)
Definition channel_ok (z : Z) : Prop := 0 <= z <= 255.

Definition color_ok (rgb : color) : Prop :=
  channel_ok (red rgb) /\ channel_ok (green rgb) /\ channel_ok (blue rgb).

(** ** [rgb_to_hex]

    The format specification [{:02x}]: lower-case hexadecimal, zero padded to
    a total width of two, the sign of a negative number counted in the width
    and written before the padding. *)

Definition hex_digits (n : N) : string :=
  HexadecimalString.NilZero.string_of_uint (N.to_hex_uint n).

Fixpoint zero_pad (width : nat) (s : string) : string :=
  match width with
  | O => s
  | S w => if (String.length s <? S w)%nat then zero_pad w (String "0" s) else s
  end.

Definition format_02x (z : Z) : string :=
  if z <? 0
  then String "-" (zero_pad 1 (hex_digits (Z.to_N (- z))))
  else zero_pad 2 (hex_digits (Z.to_N z)).

Definition rgb_to_hex (rgb : color) : string :=
  let '(r, g, b) := rgb in
  String "#" (format_02x r ++ format_02x g ++ format_02x b).

(** ** [is_grayscale] *)

Definition is_grayscale (rgb : color) (threshold : Z) : bool :=
  let '(r, g, b) := rgb in
  (Z.abs (r - g) <? threshold) && (Z.abs (g - b) <? threshold)
  && (Z.abs (r - b) <? threshold).

(** The default value of the [threshold] argument. *)
Definition default_threshold : Z := 10.

(** ** The categoriser *)

(** Conversion of a Python integer to binary64. It is exact below 2^53, and
    there the division of two converted integers is Python's true division,
    the correctly rounded quotient. Beyond, Python still rounds the exact
    quotient, or raises [OverflowError], and this conversion does not follow
    it; the statements about the saturation are on 8-bit channels. *)
Definition float_of_int (z : Z) : float :=
  if z <? 0
  then PrimFloat.opp (PrimFloat.of_uint63 (Uint63.of_Z (- z)))
  else PrimFloat.of_uint63 (Uint63.of_Z z).

Definition max_channel (rgb : color) : Z :=
  let '(r, g, b) := rgb in Z.max (Z.max r g) b.

Definition min_channel (rgb : color) : Z :=
  let '(r, g, b) := rgb in Z.min (Z.min r g) b.

(** [(max_val - min_val) / max_val if max_val > 0 else 0] *)
Definition saturation (rgb : color) : float :=
  let max_val := max_channel rgb in
  let min_val := min_channel rgb in
  if 0 <? max_val
  then PrimFloat.div (float_of_int (max_val - min_val)) (float_of_int max_val)
  else 0%float.

(** [saturation > 0.3] *)
Definition saturated (rgb : color) : bool :=
  PrimFloat.ltb 0.3%float (saturation rgb).

(** The dictionary with the three fixed keys. *)
Record categorized : Type := mk_categorized {
  primary : list color;
  neutral : list color;
  accent : list color
}.

Definition empty_categorized : categorized := mk_categorized [] [] [].

Definition append_primary (cat : categorized) (rgb : color) : categorized :=
  mk_categorized (primary cat ++ [rgb]) (neutral cat) (accent cat).

Definition append_neutral (cat : categorized) (rgb : color) : categorized :=
  mk_categorized (primary cat) (neutral cat ++ [rgb]) (accent cat).

Definition append_accent (cat : categorized) (rgb : color) : categorized :=
  mk_categorized (primary cat) (neutral cat) (accent cat ++ [rgb]).

(** One iteration of the loop of [categorize_colors]. *)
Definition categorize_step (cat : categorized) (rgb : color) : categorized :=
  if is_grayscale rgb default_threshold then append_neutral cat rgb
  else if saturated rgb then
    if (List.length (primary cat) <? 2)%nat then append_primary cat rgb
    else append_accent cat rgb
  else append_neutral cat rgb.

Definition categorize_from (cat : categorized) (colors : list color) : categorized :=
  fold_left categorize_step colors cat.

Definition categorize_colors (colors : list color) : categorized :=
  categorize_from empty_categorized colors.

(** The loop as a relation on dictionary states, one rule per branch of the
    source. *)
Inductive categorize_run : categorized -> list color -> categorized -> Prop :=
| run_done : forall cat, categorize_run cat [] cat
| run_gray : forall cat rgb rest out,
    is_grayscale rgb default_threshold = true ->
    categorize_run (append_neutral cat rgb) rest out ->
    categorize_run cat (rgb :: rest) out
| run_primary : forall cat rgb rest out,
    is_grayscale rgb default_threshold = false ->
    saturated rgb = true ->
    (List.length (primary cat) < 2)%nat ->
    categorize_run (append_primary cat rgb) rest out ->
    categorize_run cat (rgb :: rest) out
| run_accent : forall cat rgb rest out,
    is_grayscale rgb default_threshold = false ->
    saturated rgb = true ->
    (2 <= List.length (primary cat))%nat ->
    categorize_run (append_accent cat rgb) rest out ->
    categorize_run cat (rgb :: rest) out
| run_dull : forall cat rgb rest out,
    is_grayscale rgb default_threshold = false ->
    saturated rgb = false ->
    categorize_run (append_neutral cat rgb) rest out ->
    categorize_run cat (rgb :: rest) out.

(** ** [get_luminance]

    Relative luminance, in exact real arithmetic. [linearize] is the expression
    the source writes once per channel. *)

Definition linearize (x : R) : R :=
  if Rle_dec x 0.03928 then (x / 12.92)%R
  else Rpower ((x + 0.055) / 1.055) 2.4.

Definition get_luminance (rgb : color) : R :=
  let '(r, g, b) := rgb in
  let r := linearize (IZR r / 255.0) in
  let g := linearize (IZR g / 255.0) in
  let b := linearize (IZR b / 255.0) in
  (0.2126 * r + 0.7152 * g + 0.0722 * b)%R.

Definition Rltb (x y : R) : bool := if Rlt_dec x y then true else false.

(** ** [get_luminance] in binary64

    The same computation with every operation rounded to binary64, as Python
    carries it out. [pow] is the power function of the C library, which [**]
    calls on two floats; it is an argument. The statements that depend on the
    values of the luminance are about this function; the statements about
    the emitter use [get_luminance] above and depend on the order of the
    luminances only. *)

Definition linearize64 (pow : float -> float -> float) (c : float) : float :=
  if (c <=? 0.03928)%float then (c / 12.92)%float
  else pow ((c + 0.055) / 1.055)%float 2.4%float.

Definition get_luminance64 (pow : float -> float -> float) (rgb : color) : float :=
  let '(r, g, b) := rgb in
  let r := (float_of_int r / 255.0)%float in
  let g := (float_of_int g / 255.0)%float in
  let b := (float_of_int b / 255.0)%float in
  let r := linearize64 pow r in
  let g := linearize64 pow g in
  let b := linearize64 pow b in
  (0.2126 * r + 0.7152 * g + 0.0722 * b)%float.

(** ** [sorted], [max] and [min] with a [key] function

    [sorted] is stable: of two items with keys that do not compare with [<],
    the one that comes first in the input comes first in the result. Stable
    insertion from the right computes that list. [max] and [min] return the
    first extremal item. *)

Section ByKey.
Context {A K : Type}.
Variable key : A -> K.
Variable ltb : K -> K -> bool.

Fixpoint insert_by_key (x : A) (l : list A) : list A :=
  match l with
  | [] => [x]
  | y :: ys =>
      if ltb (key y) (key x) then y :: insert_by_key x ys
      else x :: y :: ys
  end.

Definition sorted (l : list A) : list A := fold_right insert_by_key [] l.

Definition max_from (first : A) (rest : list A) : A :=
  fold_left (fun best x => if ltb (key best) (key x) then x else best) rest first.

Definition min_from (first : A) (rest : list A) : A :=
  fold_left (fun best x => if ltb (key x) (key best) then x else best) rest first.
(** [x] may stand before [y]: the key of [y] is not below the key of [x]. *)
Definition key_le (x y : A) : Prop := ltb (key y) (key x) = false.

End ByKey.

(** [enumerate(l, start)] *)
Fixpoint enumerate {A : Type} (start : nat) (l : list A) : list (nat * A) :=
  match l with
  | [] => []
  | x :: xs => (start, x) :: enumerate (S start) xs
  end.

(** ** The emitter *)

Local Open Scope string_scope.

Definition nl : string := String "010"%char "".

(** An integer inside an f-string. *)
Definition str_of_nat (i : nat) : string :=
  DecimalString.NilZero.string_of_uint (Nat.to_uint i).

(** ["\n".join(lines)] *)
Definition join_lines (lines : list string) : string := String.concat nl lines.

(** Reading the palette. The functions of the emitter receive the dictionary
    object itself, so each is a computation that returns the object as it
    leaves it. *)
Definition Palette (A : Type) : Type := categorized -> A * categorized.

Definition ret {A : Type} (a : A) : Palette A := fun cat => (a, cat).

Definition bind {A B : Type} (m : Palette A) (k : A -> Palette B) : Palette B :=
  fun cat => let '(a, cat') := m cat in k a cat'.

Definition lookup {A : Type} (bucket : categorized -> A) : Palette A :=
  fun cat => (bucket cat, cat).

Notation "x <- m ;; k" := (bind m (fun x => k))
  (at level 61, m at next level, right associativity).

Definition primary_line (entry : nat * color) : string :=
  let '(i, rgb) := entry in
  let hex_color := rgb_to_hex rgb in
  "  --color-primary-" ++ str_of_nat i ++ ": " ++ hex_color ++ ";".

Definition neutral_line (entry : nat * color) : string :=
  let '(i, rgb) := entry in
  let hex_color := rgb_to_hex rgb in
  let luminance := get_luminance rgb in
  let name :=
    if Rltb 0.7 luminance then "light-" ++ str_of_nat i
    else if Rltb luminance 0.3 then "dark-" ++ str_of_nat i
    else "neutral-" ++ str_of_nat i in
  "  --color-" ++ name ++ ": " ++ hex_color ++ ";".

Definition accent_line (entry : nat * color) : string :=
  let '(i, rgb) := entry in
  let hex_color := rgb_to_hex rgb in
  "  --color-accent-" ++ str_of_nat i ++ ": " ++ hex_color ++ ";".

Definition css_header : list string :=
  ["/* Color Palette - Generated from screenshot */"; ":root {"].

(** The line ["}\n"] that closes a block. *)
Definition closing : string := "}" ++ nl.

Definition generate_css_variables : Palette string :=
  prim <- lookup primary ;;
  let css_vars := app css_header (map primary_line (enumerate 1 prim)) in
  neut <- lookup neutral ;;
  let neutrals := sorted get_luminance Rltb neut in
  let css_vars := app css_vars (map neutral_line (enumerate 1 neutrals)) in
  acc <- lookup accent ;;
  let css_vars := app css_vars (map accent_line (enumerate 1 acc)) in
  let css_vars := app css_vars [closing] in
  ret (join_lines css_vars).

Definition generate_usage_example : Palette string :=
  let examples := ["/* Usage Examples */"; "body {"] in
  neut <- lookup neutral ;;
  let examples :=
    match neut with
    | [] => examples
    | c :: rest =>
        let bg_color := rgb_to_hex (max_from get_luminance Rltb c rest) in
        app examples ["  background-color: var(--color-light-1, " ++ bg_color ++ ");"]
    end in
  neut <- lookup neutral ;;
  let examples :=
    match neut with
    | [] => examples
    | c :: rest =>
        let text_color := rgb_to_hex (min_from get_luminance Rltb c rest) in
        app examples ["  color: var(--color-dark-1, " ++ text_color ++ ");"]
    end in
  let examples := app examples [closing] in
  prim <- lookup primary ;;
  let examples :=
    match prim with
    | [] => examples
    | _ :: _ =>
        app examples ["button, a {"; "  background-color: var(--color-primary-1);";
                      "  color: white;"; closing]
    end in
  acc <- lookup accent ;;
  let examples :=
    match acc with
    | [] => examples
    | _ :: _ =>
        app examples [".highlight {"; "  border-left: 3px solid var(--color-accent-1);";
                      closing]
    end in
  ret (join_lines examples).

(** ** [str.replace] with a non-empty pattern

    Occurrences are found from the left and do not overlap; [skip] counts the
    characters of a replaced occurrence that are still to be dropped. *)

Fixpoint replace_from (old new : string) (skip : nat) (s : string) : string :=
  match s with
  | EmptyString => EmptyString
  | String c s' =>
      match skip with
      | S k => replace_from old new k s'
      | O =>
          if String.prefix old s
          then new ++ replace_from old new (String.length old - 1) s'
          else String c (replace_from old new 0 s')
      end
  end.

Definition str_replace (s old new : string) : string := replace_from old new 0 s.

(** ** [json.dump] with [indent=2]

    For the one shape [main] writes, an object of arrays of strings. The
    strings are keys of [main] and results of [rgb_to_hex]; none holds a
    character that JSON escapes. *)

Definition dquote : string := String "034"%char "".

Definition json_string (s : string) : string := dquote ++ s ++ dquote.

Definition json_array (items : list string) : string :=
  match items with
  | [] => "[]"
  | _ :: _ =>
      "[" ++ nl
      ++ String.concat ("," ++ nl) (map (fun s => "    " ++ json_string s) items)
      ++ nl ++ "  ]"
  end.

Definition json_member (kv : string * list string) : string :=
  "  " ++ json_string (fst kv) ++ ": " ++ json_array (snd kv).

Definition json_dump (obj : list (string * list string)) : string :=
  match obj with
  | [] => "{}"
  | _ :: _ =>
      "{" ++ nl ++ String.concat ("," ++ nl) (map json_member obj) ++ nl ++ "}"
  end.

(** ** [main]

    The files written and the exit status; what [main] prints is left out.
    A dictionary literal is the list of its items in insertion order.
    [exit_status] is the value [main] returns, [None] when an exception
    leaves it, and [writes] are the writes of a run in which every file
    operation goes through. The process with operations that fail is
    [run_script] below. *)

Record arguments : Type := mk_arguments {
  image : string;
  output : string;
  num_colors : Z;
  json : bool
}.

(** What a call of [extract_palette] does: it raises (the image cannot be
    opened), returns [None] (a library is missing) or returns the colours. *)
Inductive extraction : Type :=
| Raises
| ReturnsNone
| Returns (colors : list color).

Record outcome : Type := mk_outcome {
  exit_status : option Z;
  writes : list (string * string)
}.

Definition json_output (cat : categorized) (colors : list color)
  : list (string * list string) :=
  [("primary", map rgb_to_hex (primary cat));
   ("neutral", map rgb_to_hex (neutral cat));
   ("accent", map rgb_to_hex (accent cat));
   ("all_colors", map rgb_to_hex colors)].

Definition json_file (args : arguments) : string :=
  str_replace (output args) ".css" ".json".

Definition main (extract_palette : string -> Z -> extraction) (args : arguments)
  : outcome :=
  match extract_palette (image args) (num_colors args) with
  | Raises => mk_outcome None []
  | ReturnsNone => mk_outcome (Some 1%Z) []
  | Returns colors =>
      let cat := categorize_colors colors in
      let '(css_output, cat) := generate_css_variables cat in
      let '(usage, cat) := generate_usage_example cat in
      let css_output := css_output ++ nl ++ usage in
      let written := [(output args, css_output)] in
      let written :=
        if json args
        then app written [(json_file args, json_dump (json_output cat colors))]
        else written in
      mk_outcome (Some 0%Z) written
  end.

(** The content of [path] after a sequence of writes, each opening its file
    with mode ['w']: the last write to the path. *)
Fixpoint file_after (written : list (string * string)) (path : string)
  : option string :=
  match written with
  | [] => None
  | (p, text) :: rest =>
      match file_after rest path with
      | Some later => Some later
      | None => if String.eqb p path then Some text else None
      end
  end.

(** ** [extract_palette]

    The calls into PIL, numpy and scikit-learn are arguments:
    [libraries_installed] tells whether the three imports succeed;
    [load_pixels] is the image opened, converted to RGB, shrunk and reshaped
    to a flat sequence of pixels ([None] when that raises); [kmeans_fit] is
    [KMeans(n_clusters, random_state=42, n_init=10).fit] with the centres and
    labels it leaves ([None] when it raises). The rest is the source: the
    two masks, the counts of the labels, the ranking by count and the
    truncation of the centres to integers. *)

Definition centre : Type := (float * float * float)%type.

Record kmeans : Type := mk_kmeans {
  cluster_centers_ : list centre;
  labels_ : list Z
}.

(** [int(x)] for a float: truncation towards zero; it raises on an infinity
    or a NaN. *)
Definition int_of_float (f : float) : option Z :=
  match Prim2SF f with
  | S754_zero _ => Some 0%Z
  | S754_finite s m e =>
      let magnitude :=
        if (0 <=? e)%Z then (Z.pos m * 2 ^ e)%Z else (Z.pos m / 2 ^ (- e))%Z in
      Some (if s then (- magnitude)%Z else magnitude)
  | S754_infinity _ => None
  | S754_nan => None
  end.

(** [tuple(map(int, color))] *)
Definition int_tuple (c : centre) : option color :=
  let '(r, g, b) := c in
  match int_of_float r, int_of_float g, int_of_float b with
  | Some r, Some g, Some b => Some (r, g, b)
  | _, _, _ => None
  end.

(** A comprehension whose items may raise. *)
Fixpoint all_some {A : Type} (l : list (option A)) : option (list A) :=
  match l with
  | [] => Some []
  | None :: _ => None
  | Some x :: rest => option_map (cons x) (all_some rest)
  end.

Definition color_eqb (a b : color) : bool :=
  let '(r1, g1, b1) := a in
  let '(r2, g2, b2) := b in
  ((r1 =? r2) && (g1 =? g2) && (b1 =? b2))%Z.

(** [pixels[~np.all(pixels == background, axis=1)]] *)
Definition drop_pixels (background : color) (pixels : list color) : list color :=
  filter (fun p => negb (color_eqb p background)) pixels.

(** [(colors[i], label_counts[i]) for i in range(num_colors)]; a label that
    does not occur counts 0. *)
Definition color_freq_of (km : kmeans) (num_colors : Z)
  : option (list (centre * nat)) :=
  all_some
    (map (fun i =>
            option_map
              (fun c => (c, count_occ Z.eq_dec (labels_ km) (Z.of_nat i)))
              (nth_error (cluster_centers_ km) i))
       (seq 0 (Z.to_nat num_colors))).

(** [color_freq.sort(key=lambda x: x[1], reverse=True)]: descending, and
    stable as every sort of a list is. *)
Definition sort_by_count (color_freq : list (centre * nat)) : list (centre * nat) :=
  sorted (@snd centre nat) (fun a b => (b <? a)%nat) color_freq.

Definition extract_palette
    (libraries_installed : bool)
    (load_pixels : string -> option (list color))
    (kmeans_fit : Z -> list color -> option kmeans)
    (image_path : string) (num_colors : Z) : extraction :=
  if negb libraries_installed then ReturnsNone
  else
    match load_pixels image_path with
    | None => Raises
    | Some pixels =>
        let pixels := drop_pixels (255, 255, 255)%Z pixels in
        let pixels := drop_pixels (0, 0, 0)%Z pixels in
        match kmeans_fit num_colors pixels with
        | None => Raises
        | Some km =>
            match color_freq_of km num_colors with
            | None => Raises
            | Some color_freq =>
                let color_freq := sort_by_count color_freq in
                match all_some (map (fun cf => int_tuple (fst cf)) color_freq) with
                | None => Raises
                | Some colors => Returns colors
                end
            end
        end
    end.

(** ** The script as a process

    [exit(main())] with operations that can fail. A [print] or a file
    operation that raises leaves [main] as an uncaught exception, and the
    process ends with status 1, as it does when [main] returns 1; what was
    written before stays. The environment says which groups of [print]
    statements go through and what an attempt to write a text to a path does:
    it goes through, or it raises and leaves the file untouched ([open]
    raised) or holding some text (the write raised). The arguments are the
    parsed ones. *)







(** ** Definitions used by the statements *)

(** The lines of the CSS block, for neutrals already put in order. *)
Definition css_block (prim neutrals acc : list color) : list string :=
  app css_header
    (app (map primary_line (enumerate 1 prim))
       (app (map neutral_line (enumerate 1 neutrals))
          (app (map accent_line (enumerate 1 acc)) [closing]))).

(** The text [main] writes to the CSS file. *)
Definition css_text (cat : categorized) : string :=
  fst (generate_css_variables cat) ++ nl ++ fst (generate_usage_example cat).

(** [obj[key]] for a dictionary given by its items. *)
Fixpoint dict_get (key : string) (obj : list (string * list string))
  : option (list string) :=
  match obj with
  | [] => None
  | (k, v) :: rest => if String.eqb k key then Some v else dict_get key rest
  end.

(** A path [stem ++ ".css"] in which [.css] occurs nowhere but at the end. *)
Fixpoint css_only_at_end (stem : string) : Prop :=
  match stem with
  | EmptyString => True
  | String c stem' =>
      String.prefix ".css" (String c stem' ++ ".css") = false
      /\ css_only_at_end stem'
  end.

(** The variable names of the CSS block, and a declaration line. *)
Definition primary_name (i : nat) : string := "primary-" ++ str_of_nat i.

Definition accent_name (i : nat) : string := "accent-" ++ str_of_nat i.

Definition neutral_name (i : nat) (rgb : color) : string :=
  if Rltb 0.7 (get_luminance rgb) then "light-" ++ str_of_nat i
  else if Rltb (get_luminance rgb) 0.3 then "dark-" ++ str_of_nat i
  else "neutral-" ++ str_of_nat i.

Definition declaration (entry : string * color) : string :=
  "  --color-" ++ fst entry ++ ": " ++ rgb_to_hex (snd entry) ++ ";".

(** The declared variables with their colours, in the order of the block. *)
Definition css_entries (cat : categorized) : list (string * color) :=
  app (map (fun e => (primary_name (fst e), snd e)) (enumerate 1 (primary cat)))
    (app (map (fun e => (neutral_name (fst e) (snd e), snd e))
            (enumerate 1 (sorted get_luminance Rltb (neutral cat))))
       (map (fun e => (accent_name (fst e), snd e)) (enumerate 1 (accent cat)))).

Definition first_char (s : string) : option ascii :=
  match s with
  | EmptyString => None
  | String c _ => Some c
  end.

(** The blocks of the usage example that follow the [body] block. *)
Definition usage_tail (cat : categorized) : list string :=
  app (match primary cat with
       | [] => []
       | _ :: _ => ["button, a {"; "  background-color: var(--color-primary-1);";
                    "  color: white;"; closing]
       end)
      (match accent cat with
       | [] => []
       | _ :: _ => [".highlight {"; "  border-left: 3px solid var(--color-accent-1);";
                    closing]
       end).

(** [old] occurs nowhere in [s]. *)
Fixpoint never_occurs (old s : string) : Prop :=
  match s with
  | EmptyString => True
  | String c s' => String.prefix old s = false /\ never_occurs old s'
  end.

Local Close Scope string_scope.

(** A colour the categoriser sends to [primary] or [accent]: it fails the
    grayscale test and passes the saturation test. *)
Definition vivid (rgb : color) : Prop :=
  is_grayscale rgb default_threshold = false /\ saturated rgb = true.

(** The test that sends a colour to [neutral]; it does not look at the
    buckets. *)
Definition dull (rgb : color) : bool :=
  is_grayscale rgb default_threshold || negb (saturated rgb).

(** Ascending luminance. *)
Definition luminance_le (x y : color) : Prop :=
  (get_luminance x <= get_luminance y)%R.

(** The binary64 saturation test as a function of the largest and the
    smallest channel, and its table over the 8-bit range. *)
Definition saturation_test (max_val min_val : Z) : bool :=
  PrimFloat.ltb 0.3%float
    (if 0 <? max_val
     then PrimFloat.div (float_of_int (max_val - min_val)) (float_of_int max_val)
     else 0%float).

Definition channel_values : list Z := map Z.of_nat (seq 0 256).

Definition saturation_table_ok : bool :=
  forallb (fun mx =>
    forallb (fun mn =>
      Bool.eqb (saturation_test mx mn) (3 * mx <? 10 * (mx - mn)))
      channel_values)
    channel_values.

(** The two tests that send a colour to [primary] or [accent], as one. *)
Definition vivid_test (rgb : color) : bool :=
  negb (is_grayscale rgb default_threshold) && saturated rgb.

(** A character of [0123456789abcdef]. *)
Definition is_hex_digit (c : ascii) : bool :=
  let n := nat_of_ascii c in
  ((48 <=? n) && (n <=? 57) || (97 <=? n) && (n <=? 102))%nat.

Fixpoint string_forallb (p : ascii -> bool) (s : string) : bool :=
  match s with
  | EmptyString => true
  | String c s' => p c && string_forallb p s'
  end.

(** [format_02x] over the 8-bit range: two hexadecimal digits, different for
    different values. *)
Definition format_table_ok : bool :=
  forallb (fun a =>
    (String.length (format_02x a) =? 2)%nat
    && string_forallb is_hex_digit (format_02x a)
    && forallb (fun b =>
         implb (String.eqb (format_02x a) (format_02x b)) (a =? b))
         channel_values)
    channel_values.

(** The colours of luminance [k]. *)
Definition has_luminance (k : R) (rgb : color) : bool :=
  if Req_dec_T (get_luminance rgb) k then true else false.

(** ** The accuracy of [pow] on the gray ramp

    The exact value of a positive finite float is [m * 2 ^ e]. For such an
    [x], [lower_power x] is the largest float not above the real number
    [x ^ (12/5)], found with integer arithmetic ([y ^ 5 <= x ^ 12]), and
    [near_powers x] are the eight floats around that real number: four at or
    below it and four above it. *)

Definition exact_value (f : float) : option (Z * Z) :=
  match Prim2SF f with
  | S754_finite false m e => Some (Z.pos m, e)
  | _ => None
  end.

(** [y ^ 5 <= x ^ 12] and [x ^ 12 < y ^ 5] on the exact values. *)
Definition fifth_le_twelfth (y x : float) : bool :=
  match exact_value y, exact_value x with
  | Some (my, ey), Some (mx, ex) =>
      let low := Z.min (5 * ey) (12 * ex) in
      my ^ 5 * 2 ^ (5 * ey - low) <=? mx ^ 12 * 2 ^ (12 * ex - low)
  | _, _ => false
  end.

Definition twelfth_lt_fifth (x y : float) : bool :=
  match exact_value y, exact_value x with
  | Some (my, ey), Some (mx, ex) =>
      let low := Z.min (5 * ey) (12 * ex) in
      mx ^ 12 * 2 ^ (12 * ex - low) <? my ^ 5 * 2 ^ (5 * ey - low)
  | _, _ => false
  end.

(** The integer fifth root, bit by bit from the top. *)
Fixpoint root5_bits (bits : nat) (n r : Z) : Z :=
  match bits with
  | O => r
  | S k =>
      let c := r + 2 ^ Z.of_nat k in
      root5_bits k n (if c ^ 5 <=? n then c else r)
  end.

Definition root5 (n : Z) : Z := root5_bits 66 n 0.

Definition lower_power (x : float) : float :=
  match exact_value x with
  | Some (mx, ex) =>
      let n := Z.shiftl (mx ^ 12) (12 * ex + 5 * 64) in
      let r := root5 n in
      let extra := Z.log2 r + 1 - 53 in
      Z.ldexp (PrimFloat.of_uint63 (Uint63.of_Z (Z.shiftr r extra))) (extra - 64)
  | None => nan
  end.

Definition near_powers (x : float) : list float :=
  let y := lower_power x in
  [next_down (next_down (next_down y)); next_down (next_down y); next_down y; y;
   next_up y; next_up (next_up y); next_up (next_up (next_up y));
   next_up (next_up (next_up (next_up y)))].

(** The channel value [v] divided by 255, and the argument [pow] receives
    for a channel on the power branch. *)
Definition gray_level (v : Z) : float := (float_of_int v / 255.0)%float.

Definition power_argument (c : float) : float := ((c + 0.055) / 1.055)%float.

(** [pow] is accurate on the gray ramp: for each of the 8-bit channel values
    that take the power branch, the float it returns is one of the eight
    around the real power. The float 2.4 lies below 12/5 by less than
    [2 ^ -53], which moves the real power up by less than two units in the
    last place on these arguments; a [pow] that errs by less than one unit
    in the last place is accurate in this sense. *)
Definition pow_accurate_on_ramp (pow : float -> float -> float) : Prop :=
  forall v,
    0 <= v <= 255 ->
    (gray_level v <=? 0.03928)%float = false ->
    In (pow (power_argument (gray_level v)) 2.4%float)
       (near_powers (power_argument (gray_level v))).

(** The luminance of a gray whose three channels linearize to [r]. *)
Definition gray_weight (r : float) : float :=
  (0.2126 * r + 0.7152 * r + 0.0722 * r)%float.

(** The values the luminance of the gray [(v, v, v)] can take with an
    accurate [pow]. *)
Definition gray_candidates (v : Z) : list float :=
  if (gray_level v <=? 0.03928)%float
  then [gray_weight (gray_level v / 12.92)%float]
  else map gray_weight (near_powers (power_argument (gray_level v))).

Definition gray_table : list (Z * list float) :=
  map (fun v => (v, gray_candidates v)) channel_values.

(** Every candidate of an entry is below every candidate of an entry with a
    larger channel value. *)
Definition all_lighter_above (table : list (Z * list float)) : bool :=
  forallb (fun darker =>
    forallb (fun lighter =>
      implb (fst darker <? fst lighter)
        (forallb (fun a => forallb (fun b => (a <? b)%float) (snd lighter))
           (snd darker)))
      table)
    table.

(** [lower_power] does what it is meant to on the arguments of the ramp:
    the real power lies between it and the next float. *)
Definition lower_power_ok : bool :=
  forallb (fun v =>
    let x := power_argument (gray_level v) in
    let y := lower_power x in
    (gray_level v <=? 0.03928)%float
    || fifth_le_twelfth y x && twelfth_lt_fifth x (next_up y))
    channel_values.

(** * Properties *)

(** ** Sample runs *)

Example rgb_to_hex_black : rgb_to_hex (0, 0, 0) = "#000000"%string.
Proof. reflexivity. Qed.

Example rgb_to_hex_white : rgb_to_hex (255, 255, 255) = "#ffffff"%string.
Proof. reflexivity. Qed.

Example rgb_to_hex_123456 : rgb_to_hex (18, 52, 86) = "#123456"%string.
Proof. reflexivity. Qed.

Example categorize_red_and_gray :
  categorize_colors [(200, 50, 50); (240, 240, 240)]
  = mk_categorized [(200, 50, 50)] [(240, 240, 240)] [].
Proof. vm_compute. reflexivity. Qed.

Example str_replace_suffix :
  str_replace "color_palette.css" ".css" ".json" = "color_palette.json"%string.
Proof. reflexivity. Qed.

Example json_dump_sample :
  json_dump [("primary", ["#c83232"]); ("neutral", [])]%string
  = ("{" ++ nl ++ "  " ++ dquote ++ "primary" ++ dquote ++ ": [" ++ nl
     ++ "    " ++ dquote ++ "#c83232" ++ dquote ++ nl ++ "  ]," ++ nl
     ++ "  " ++ dquote ++ "neutral" ++ dquote ++ ": []" ++ nl ++ "}")%string.
Proof. reflexivity. Qed.

(** ** The saturation test on 8-bit channels

    On the channel range the binary64 comparison [saturation > 0.3] decides
    the exact inequality [(max - min) / max > 3 / 10]. The float side is
    evaluated on every pair of channel values. *)

Lemma channel_values_complete (z : Z) : channel_ok z -> In z channel_values.
Proof.
  intros [Hlo Hhi]. unfold channel_values.
  rewrite <- (Z2Nat.id z Hlo). apply in_map, in_seq. lia.
Qed.

Lemma saturation_table : saturation_table_ok = true.
Proof. vm_compute. reflexivity. Qed.

Lemma saturation_test_exact (mx mn : Z) :
  channel_ok mx -> channel_ok mn ->
  saturation_test mx mn = (3 * mx <? 10 * (mx - mn)).
Proof.
  intros Hx Hn.
  pose proof saturation_table as T. unfold saturation_table_ok in T.
  rewrite forallb_forall in T.
  specialize (T mx (channel_values_complete mx Hx)).
  rewrite forallb_forall in T.
  specialize (T mn (channel_values_complete mn Hn)).
  now apply Bool.eqb_prop in T.
Qed.

Lemma max_channel_ok (rgb : color) : color_ok rgb -> channel_ok (max_channel rgb).
Proof.
  destruct rgb as [[r g] b].
  unfold color_ok, channel_ok, max_channel, red, green, blue. cbn [fst snd]. lia.
Qed.

Lemma min_channel_ok (rgb : color) : color_ok rgb -> channel_ok (min_channel rgb).
Proof.
  destruct rgb as [[r g] b].
  unfold color_ok, channel_ok, min_channel, red, green, blue. cbn [fst snd]. lia.
Qed.

(** For a colour with 8-bit channels, [saturation > 0.3] holds in binary64
    exactly when [10 * (max - min) > 3 * max]. *)
Lemma saturated_exact (rgb : color) :
  color_ok rgb ->
  saturated rgb = true <-> 3 * max_channel rgb < 10 * (max_channel rgb - min_channel rgb).
Proof.
  intros Hok.
  assert (E : saturated rgb = saturation_test (max_channel rgb) (min_channel rgb))
    by reflexivity.
  rewrite E, (saturation_test_exact _ _ (max_channel_ok _ Hok) (min_channel_ok _ Hok)).
  apply Z.ltb_lt.
Qed.

(** ** The loop of the categoriser *)

Lemma categorize_from_app (cat : categorized) (l1 l2 : list color) :
  categorize_from cat (l1 ++ l2) = categorize_from (categorize_from cat l1) l2.
Proof. apply fold_left_app. Qed.

Lemma categorize_from_cons (cat : categorized) (rgb : color) (l : list color) :
  categorize_from cat (rgb :: l) = categorize_from (categorize_step cat rgb) l.
Proof. reflexivity. Qed.

(** The four outcomes of one iteration. *)
Lemma categorize_step_cases (cat : categorized) (rgb : color) :
  (is_grayscale rgb default_threshold = true
   /\ categorize_step cat rgb = append_neutral cat rgb)
  \/ (is_grayscale rgb default_threshold = false /\ saturated rgb = true
      /\ (List.length (primary cat) < 2)%nat
      /\ categorize_step cat rgb = append_primary cat rgb)
  \/ (is_grayscale rgb default_threshold = false /\ saturated rgb = true
      /\ (2 <= List.length (primary cat))%nat
      /\ categorize_step cat rgb = append_accent cat rgb)
  \/ (is_grayscale rgb default_threshold = false /\ saturated rgb = false
      /\ categorize_step cat rgb = append_neutral cat rgb).
Proof.
  unfold categorize_step.
  destruct (is_grayscale rgb default_threshold); [now left|].
  destruct (saturated rgb); [|now right; right; right].
  destruct (Nat.ltb_spec (List.length (primary cat)) 2).
  - right; left. auto.
  - right; right; left. auto.
Qed.

Ltac step_cases cat rgb :=
  let Hg := fresh "Hgray" in
  let Hs := fresh "Hsat" in
  let Hl := fresh "Hlen" in
  let He := fresh "Hstep" in
  destruct (categorize_step_cases cat rgb)
    as [[Hg He] | [(Hg & Hs & Hl & He) | [(Hg & Hs & Hl & He) | (Hg & Hs & He)]]].

Lemma categorize_run_total (colors : list color) :
  forall cat, categorize_run cat colors (categorize_from cat colors).
Proof.
  induction colors as [|rgb rest IH]; intros cat.
  - constructor.
  - rewrite categorize_from_cons.
    step_cases cat rgb; rewrite Hstep.
    + now apply run_gray.
    + now apply run_primary.
    + now apply run_accent.
    + now apply run_dull.
Qed.

Lemma categorize_run_functional (cat : categorized) (colors : list color)
    (out : categorized) :
  categorize_run cat colors out -> out = categorize_from cat colors.
Proof.
  induction 1 as [cat | cat rgb rest out Hg _ IH | cat rgb rest out Hg Hs Hl _ IH
                 | cat rgb rest out Hg Hs Hl _ IH | cat rgb rest out Hg Hs _ IH];
    [reflexivity | | | |];
    rewrite categorize_from_cons, IH; f_equal; unfold categorize_step;
    rewrite Hg; try rewrite Hs; try reflexivity.
  - apply Nat.ltb_lt in Hl. now rewrite Hl.
  - apply Nat.ltb_ge in Hl. now rewrite Hl.
Qed.

(** The buckets only grow, at their ends. *)
Lemma categorize_from_extends (colors : list color) :
  forall cat, exists p n a,
    primary (categorize_from cat colors) = primary cat ++ p
    /\ neutral (categorize_from cat colors) = neutral cat ++ n
    /\ accent (categorize_from cat colors) = accent cat ++ a.
Proof.
  induction colors as [|rgb rest IH]; intros cat.
  - exists [], [], []. simpl. now rewrite !app_nil_r.
  - rewrite categorize_from_cons.
    destruct (IH (categorize_step cat rgb)) as (p & n & a & Hp & Hn & Ha).
    rewrite Hp, Hn, Ha.
    step_cases cat rgb; rewrite Hstep; simpl; rewrite <- ?app_assoc; simpl.
    + now exists p, (rgb :: n), a.
    + now exists (rgb :: p), n, a.
    + now exists p, n, (rgb :: a).
    + now exists p, (rgb :: n), a.
Qed.

Lemma primary_length_from (colors : list color) :
  forall cat, (List.length (primary cat) <= 2)%nat ->
    (List.length (primary (categorize_from cat colors)) <= 2)%nat.
Proof.
  induction colors as [|rgb rest IH]; intros cat Hcat; [exact Hcat|].
  rewrite categorize_from_cons. apply IH.
  step_cases cat rgb; rewrite Hstep; simpl; try exact Hcat.
  rewrite length_app. simpl. lia.
Qed.

Lemma full_primary_stays (colors : list color) :
  forall cat, (2 <= List.length (primary cat))%nat ->
    primary (categorize_from cat colors) = primary cat.
Proof.
  induction colors as [|rgb rest IH]; intros cat Hcat; [reflexivity|].
  rewrite categorize_from_cons.
  step_cases cat rgb; rewrite Hstep; try (rewrite IH; [reflexivity | exact Hcat]).
  lia.
Qed.

Lemma categorize_from_permutation (colors : list color) :
  forall cat,
    Permutation
      (primary (categorize_from cat colors) ++ neutral (categorize_from cat colors)
       ++ accent (categorize_from cat colors))
      ((primary cat ++ neutral cat ++ accent cat) ++ colors).
Proof.
  induction colors as [|rgb rest IH]; intros cat.
  - simpl. now rewrite app_nil_r.
  - rewrite categorize_from_cons. rewrite IH.
    change (rgb :: rest) with ([rgb] ++ rest). rewrite (app_assoc _ [rgb] rest).
    apply Permutation_app_tail.
    step_cases cat rgb; rewrite Hstep; simpl; rewrite <- ?app_assoc.
    + do 2 apply Permutation_app_head. apply Permutation_app_comm.
    + apply Permutation_app_head. rewrite (app_assoc (neutral cat)).
      apply (Permutation_app_comm [rgb]).
    + reflexivity.
    + do 2 apply Permutation_app_head. apply Permutation_app_comm.
Qed.

Lemma vivid_buckets (colors : list color) :
  forall cat c,
    In c (primary (categorize_from cat colors)) \/ In c (accent (categorize_from cat colors)) ->
    In c (primary cat) \/ In c (accent cat) \/ vivid c.
Proof.
  induction colors as [|rgb rest IH]; intros cat c Hin.
  - simpl in Hin. tauto.
  - rewrite categorize_from_cons in Hin. apply IH in Hin.
    step_cases cat rgb; rewrite Hstep in Hin; simpl in Hin;
      rewrite ?in_app_iff in Hin; simpl in Hin; unfold vivid.
    + tauto.
    + destruct Hin as [[H | [<- | []]] | H]; tauto.
    + destruct Hin as [H | [[H | [<- | []]] | H]]; tauto.
    + tauto.
Qed.

Lemma dull_to_neutral (colors : list color) :
  forall cat c,
    In c colors ->
    is_grayscale c default_threshold = true \/ saturated c = false ->
    In c (neutral (categorize_from cat colors)).
Proof.
  induction colors as [|rgb rest IH]; intros cat c Hin Hdull; [destruct Hin|].
  rewrite categorize_from_cons. destruct Hin as [-> | Hin]; [|now apply IH].
  destruct (categorize_from_extends rest (categorize_step cat c))
    as (p & n & a & _ & Hn & _).
  rewrite Hn. apply in_or_app. left.
  step_cases cat c; rewrite Hstep; simpl;
    try (apply in_or_app; right; now left);
    destruct Hdull; congruence.
Qed.

Lemma vivid_run (colors : list color) :
  forall cat, Forall vivid colors ->
    categorize_from cat colors
    = mk_categorized
        (primary cat ++ firstn (2 - List.length (primary cat)) colors)
        (neutral cat)
        (accent cat ++ skipn (2 - List.length (primary cat)) colors).
Proof.
  induction colors as [|rgb rest IH]; intros cat Hall.
  - rewrite firstn_nil, skipn_nil, !app_nil_r. now destruct cat.
  - inversion Hall as [|? ? [Hg Hs] Hrest]; subst.
    rewrite categorize_from_cons, (IH _ Hrest).
    unfold categorize_step. rewrite Hg, Hs.
    destruct (Nat.ltb_spec (List.length (primary cat)) 2) as [Hlt | Hge];
      unfold append_primary, append_accent; cbn [primary neutral accent].
    + rewrite length_app. cbn [List.length].
      replace (2 - List.length (primary cat))%nat
        with (S (2 - (List.length (primary cat) + 1)))%nat by lia.
      cbn [firstn skipn]. now rewrite <- app_assoc.
    + replace (2 - List.length (primary cat))%nat with 0%nat by lia.
      cbn [firstn skipn]. now rewrite <- app_assoc.
Qed.

(** ** The claims about the categoriser *)

(** C1, as the specification states it, fails: five colours, each with
    saturation above 0.3 (here 1/2, 5/9, 5/8, 1/2 and 2/3), none of which
    reaches [primary] or [accent], because the grayscale test comes first and
    all their channels lie within 9 of each other. *)
Lemma saturated_grays_counterexample :
  let colors := [(10, 5, 5); (9, 4, 4); (8, 3, 3); (12, 6, 6); (6, 2, 2)] in
  List.length colors = 5%nat
  /\ Forall color_ok colors
  /\ Forall (fun c => saturated c = true) colors
  /\ Forall (fun c => 3 * max_channel c < 10 * (max_channel c - min_channel c)) colors
  /\ categorize_colors colors = mk_categorized [] colors []
  /\ ~ (primary (categorize_colors colors) = firstn 2 colors
        /\ accent (categorize_colors colors) = skipn 2 colors).
Proof.
  cbv zeta. split; [reflexivity|]. split.
  { repeat constructor; vm_compute; congruence. }
  split. { repeat constructor. }
  split. { repeat constructor. }
  split. { vm_compute. reflexivity. }
  intros [H _]. vm_compute in H. discriminate H.
Qed.

(** C1 (amended): of five colours in sequence, each of which fails the
    grayscale test and has saturation above 0.3, exactly the first two land
    in [primary] and the remaining three in [accent]; [neutral] stays empty. *)
Theorem first_two_saturated_are_primary (colors : list color) :
  List.length colors = 5%nat ->
  (forall c, In c colors ->
     is_grayscale c default_threshold = false /\ saturated c = true) ->
  primary (categorize_colors colors) = firstn 2 colors
  /\ accent (categorize_colors colors) = skipn 2 colors
  /\ neutral (categorize_colors colors) = []
  /\ List.length (primary (categorize_colors colors)) = 2%nat
  /\ List.length (accent (categorize_colors colors)) = 3%nat.
Proof.
  intros Hlen Hall.
  assert (Hv : Forall vivid colors) by (apply Forall_forall; exact Hall).
  unfold categorize_colors. rewrite (vivid_run colors empty_categorized Hv).
  unfold empty_categorized. cbn [primary neutral accent List.length app Nat.sub].
  repeat split.
  - rewrite length_firstn. lia.
  - rewrite length_skipn. lia.
Qed.

Lemma first_two_saturated_are_primary_witness :
  let colors := [(200, 50, 50); (50, 200, 50); (50, 50, 200); (200, 200, 50); (50, 200, 200)] in
  primary (categorize_colors colors) = [(200, 50, 50); (50, 200, 50)]
  /\ accent (categorize_colors colors) = [(50, 50, 200); (200, 200, 50); (50, 200, 200)]
  /\ neutral (categorize_colors colors) = []
  /\ List.length (primary (categorize_colors colors)) = 2%nat
  /\ List.length (accent (categorize_colors colors)) = 3%nat.
Proof.
  apply (first_two_saturated_are_primary
           [(200, 50, 50); (50, 200, 50); (50, 50, 200); (200, 200, 50); (50, 200, 200)]).
  - reflexivity.
  - intros c Hin. simpl in Hin.
    repeat (destruct Hin as [<- | Hin]; [split; vm_compute; reflexivity|]).
    destruct Hin.
Defined.

(** C2: the [primary] bucket never holds more than two colours, and a colour
    that fails the grayscale test and has saturation above 0.3, met while
    [primary] already holds two colours, is appended to [accent] and stays
    there; [primary] is left as it was. *)
Theorem primary_holds_at_most_two (colors : list color) :
  (List.length (primary (categorize_colors colors)) <= 2)%nat
  /\ forall pre rgb post,
       colors = pre ++ rgb :: post ->
       is_grayscale rgb default_threshold = false ->
       saturated rgb = true ->
       List.length (primary (categorize_colors pre)) = 2%nat ->
       categorize_colors (pre ++ [rgb]) = append_accent (categorize_colors pre) rgb
       /\ primary (categorize_colors colors) = primary (categorize_colors pre)
       /\ exists later,
            accent (categorize_colors colors)
            = accent (categorize_colors pre) ++ rgb :: later.
Proof.
  split.
  - apply primary_length_from. simpl. lia.
  - intros pre rgb post -> Hg Hs Hfull.
    assert (Hstep : categorize_step (categorize_colors pre) rgb
                    = append_accent (categorize_colors pre) rgb).
    { unfold categorize_step. rewrite Hg, Hs, Hfull. reflexivity. }
    unfold categorize_colors in *.
    rewrite !categorize_from_app. simpl categorize_from at 1.
    rewrite categorize_from_cons, Hstep. split; [reflexivity|]. split.
    + rewrite full_primary_stays; simpl; [reflexivity | lia].
    + destruct (categorize_from_extends post
                  (append_accent (categorize_from empty_categorized pre) rgb))
        as (_ & _ & a & _ & _ & Ha).
      exists a. rewrite Ha. simpl. now rewrite <- app_assoc.
Qed.

Lemma primary_holds_at_most_two_witness :
  categorize_colors ([(200, 50, 50); (50, 200, 50)] ++ [(50, 50, 200)])
  = append_accent (categorize_colors [(200, 50, 50); (50, 200, 50)]) (50, 50, 200)
  /\ primary (categorize_colors [(200, 50, 50); (50, 200, 50); (50, 50, 200); (90, 90, 90)])
     = primary (categorize_colors [(200, 50, 50); (50, 200, 50)])
  /\ exists later,
       accent (categorize_colors [(200, 50, 50); (50, 200, 50); (50, 50, 200); (90, 90, 90)])
       = accent (categorize_colors [(200, 50, 50); (50, 200, 50)]) ++ (50, 50, 200) :: later.
Proof.
  apply (proj2 (primary_holds_at_most_two
                  [(200, 50, 50); (50, 200, 50); (50, 50, 200); (90, 90, 90)])
           [(200, 50, 50); (50, 200, 50)] (50, 50, 200) [(90, 90, 90)]).
  - reflexivity.
  - vm_compute. reflexivity.
  - vm_compute. reflexivity.
  - vm_compute. reflexivity.
Defined.

(** C3: the categoriser is total (its loop ends in the state the function
    returns), the three bucket lengths add up to the length of the input, and
    the buckets together hold the input colours, each occurrence once. *)
Theorem every_color_in_one_bucket (colors : list color) :
  categorize_run empty_categorized colors (categorize_colors colors)
  /\ (List.length (primary (categorize_colors colors))
      + List.length (neutral (categorize_colors colors))
      + List.length (accent (categorize_colors colors)) = List.length colors)%nat
  /\ Permutation
       (primary (categorize_colors colors) ++ neutral (categorize_colors colors)
        ++ accent (categorize_colors colors))
       colors.
Proof.
  pose proof (categorize_from_permutation colors empty_categorized) as P.
  simpl in P. fold (categorize_colors colors) in P.
  split; [apply categorize_run_total|]. split; [|exact P].
  apply Permutation_length in P. rewrite !length_app in P. lia.
Qed.

(** C4: at the default threshold, [is_grayscale] is true of a triple whose
    three pairwise differences are at most 9 in absolute value, and false of
    a triple with a pairwise difference of 10 or more. *)
Theorem is_grayscale_default (r g b : Z) :
  (Z.abs (r - g) <= 9 /\ Z.abs (g - b) <= 9 /\ Z.abs (r - b) <= 9 ->
   is_grayscale (r, g, b) default_threshold = true)
  /\ (10 <= Z.abs (r - g) \/ 10 <= Z.abs (g - b) \/ 10 <= Z.abs (r - b) ->
      is_grayscale (r, g, b) default_threshold = false).
Proof.
  unfold is_grayscale, default_threshold. split.
  - intros (H1 & H2 & H3).
    rewrite !andb_true_iff, !Z.ltb_lt. lia.
  - intros H.
    rewrite !andb_false_iff, !Z.ltb_ge. lia.
Qed.

Lemma is_grayscale_default_witness :
  is_grayscale (100, 109, 104) default_threshold = true
  /\ is_grayscale (100, 110, 105) default_threshold = false.
Proof.
  split.
  - apply (proj1 (is_grayscale_default 100 109 104)). simpl. lia.
  - apply (proj2 (is_grayscale_default 100 110 105)). simpl. lia.
Defined.

Lemma saturation_without_max (rgb : color) :
  max_channel rgb = 0 -> saturation rgb = 0%float.
Proof. intros H. unfold saturation. now rewrite H. Qed.

(** C5: for a colour whose largest channel is 0 the guarded division is not
    carried out and the saturation is 0; the categoriser appends the colour
    to [neutral], whatever the state of the buckets, so that it is found in
    [neutral] and in no other bucket of the result. *)
Theorem zero_max_is_neutral (rgb : color) :
  max_channel rgb = 0 ->
  saturation rgb = 0%float
  /\ (forall cat, categorize_step cat rgb = append_neutral cat rgb)
  /\ forall colors, In rgb colors ->
       In rgb (neutral (categorize_colors colors))
       /\ ~ In rgb (primary (categorize_colors colors))
       /\ ~ In rgb (accent (categorize_colors colors)).
Proof.
  intros Hmax.
  pose proof (saturation_without_max rgb Hmax) as Hsat.
  assert (Hdull : saturated rgb = false) by (unfold saturated; now rewrite Hsat).
  split; [exact Hsat|]. split.
  - intros cat. unfold categorize_step. rewrite Hdull.
    now destruct (is_grayscale rgb default_threshold).
  - intros colors Hin.
    assert (Hnot : ~ vivid rgb) by (unfold vivid; intros [_ H]; congruence).
    split; [apply dull_to_neutral; auto|].
    split; intros H;
      destruct (vivid_buckets colors empty_categorized rgb) as [[] | [[] | Hv]];
      auto.
Qed.

Lemma zero_max_is_neutral_witness :
  saturation (0, 0, 0) = 0%float
  /\ (forall cat, categorize_step cat (0, 0, 0) = append_neutral cat (0, 0, 0))
  /\ forall colors, In (0, 0, 0) colors ->
       In (0, 0, 0) (neutral (categorize_colors colors))
       /\ ~ In (0, 0, 0) (primary (categorize_colors colors))
       /\ ~ In (0, 0, 0) (accent (categorize_colors colors)).
Proof. apply (zero_max_is_neutral (0, 0, 0)). reflexivity. Defined.

(** C7: two runs of the loop of the categoriser on the same sequence of
    colours, from the empty buckets, end in the same three buckets, which
    are those [categorize_colors] returns. *)
Theorem categorize_colors_deterministic (colors : list color) (out1 out2 : categorized) :
  categorize_run empty_categorized colors out1 ->
  categorize_run empty_categorized colors out2 ->
  out1 = out2
  /\ primary out1 = primary out2 /\ neutral out1 = neutral out2
  /\ accent out1 = accent out2
  /\ out1 = categorize_colors colors.
Proof.
  intros H1 H2.
  apply categorize_run_functional in H1, H2. subst out1 out2.
  repeat split.
Qed.

Lemma categorize_colors_deterministic_witness :
  let colors := [(200, 50, 50); (240, 240, 240); (50, 200, 50); (50, 50, 200)] in
  let out := categorize_colors colors in
  out = out
  /\ primary out = primary out /\ neutral out = neutral out
  /\ accent out = accent out
  /\ out = categorize_colors colors.
Proof.
  cbv zeta.
  apply (categorize_colors_deterministic
           [(200, 50, 50); (240, 240, 240); (50, 200, 50); (50, 50, 200)]).
  - apply categorize_run_total.
  - apply categorize_run_total.
Defined.

(** The order of the input matters: the same colours in another order give
    other buckets. *)
Example categorize_depends_on_order :
  categorize_colors [(200, 50, 50); (50, 200, 50); (50, 50, 200)]
  = mk_categorized [(200, 50, 50); (50, 200, 50)] [] [(50, 50, 200)]
  /\ categorize_colors [(50, 50, 200); (50, 200, 50); (200, 50, 50)]
     = mk_categorized [(50, 50, 200); (50, 200, 50)] [] [(200, 50, 50)].
Proof. split; vm_compute; reflexivity. Qed.

(** ** Relative luminance in exact arithmetic

    The order of the luminances of grays under the exact formula, for the
    sample runs of the emitter. *)

Section Luminance.
Local Open Scope R_scope.

Lemma linearize_low (x : R) : x <= 0.03928 -> linearize x = x / 12.92.
Proof. intros H. unfold linearize. destruct (Rle_dec x 0.03928); [reflexivity | contradiction]. Qed.

Lemma linearize_high (x : R) :
  0.03928 < x -> linearize x = Rpower ((x + 0.055) / 1.055) 2.4.
Proof. intros H. unfold linearize. destruct (Rle_dec x 0.03928); [lra | reflexivity]. Qed.

(** The exponent 2.4 is 12/5: the fifth power of [x ** 2.4] is the twelfth
    power of [x], which turns a comparison with a decimal constant into one
    between rational numbers. *)
Lemma Rpower_fifth (x : R) : 0 < x -> Rpower x 2.4 ^ 5 = x ^ 12.
Proof.
  intros Hx.
  rewrite <- (Rpower_pow 5 (Rpower x 2.4)) by apply exp_pos.
  rewrite Rpower_mult.
  replace (2.4 * INR 5) with (INR 12) by (simpl; lra).
  now apply Rpower_pow.
Qed.

Lemma Rpower_above (x c : R) :
  0 < x -> 0 <= c -> c ^ 5 < x ^ 12 -> c < Rpower x 2.4.
Proof.
  intros Hx Hc Hlt.
  destruct (Rlt_le_dec c (Rpower x 2.4)) as [H | H]; [exact H|].
  exfalso.
  assert (Hp : 0 <= Rpower x 2.4) by (left; apply exp_pos).
  pose proof (pow_incr _ _ 5 (conj Hp H)) as Hpow.
  rewrite (Rpower_fifth x Hx) in Hpow. lra.
Qed.

Lemma Rpower_below (x c : R) :
  0 < x -> 0 <= c -> x ^ 12 < c ^ 5 -> Rpower x 2.4 < c.
Proof.
  intros Hx Hc Hlt.
  destruct (Rlt_le_dec (Rpower x 2.4) c) as [H | H]; [exact H|].
  exfalso.
  pose proof (pow_incr _ _ 5 (conj Hc H)) as Hpow.
  rewrite (Rpower_fifth x Hx) in Hpow. lra.
Qed.

Lemma gray_luminance (v : Z) :
  get_luminance (v, v, v) = linearize (IZR v / 255).
Proof.
  unfold get_luminance.
  replace (IZR v / 255.0) with (IZR v / 255) by lra.
  generalize (linearize (IZR v / 255)). intros l. lra.
Qed.

Lemma channel_on_linear_part (v : Z) : (v <= 10)%Z -> IZR v / 255 <= 0.03928.
Proof. intros H. apply IZR_le in H. lra. Qed.

Lemma channel_on_power_part (v : Z) : (11 <= v)%Z -> 0.03928 < IZR v / 255.
Proof. intros H. apply IZR_le in H. lra. Qed.

Lemma linearize_increasing_low (x y : R) :
  x < y -> y <= 0.03928 -> linearize x < linearize y.
Proof.
  intros Hxy Hy. rewrite !linearize_low by lra. lra.
Qed.

Lemma linearize_increasing_high (x y : R) :
  0.03928 < x -> x < y -> linearize x < linearize y.
Proof.
  intros Hx Hxy. rewrite !linearize_high by lra.
  apply Rlt_Rpower_l; lra.
Qed.

(** Across the threshold: the last channel value of the linear part, 10,
    against the first of the power part, 11. *)
Lemma linearize_across : linearize (10 / 255) < linearize (11 / 255).
Proof.
  rewrite linearize_low, linearize_high by lra.
  apply Rpower_above; lra.
Qed.

Lemma linearize_channel_increasing (v1 v2 : Z) :
  (v1 < v2)%Z -> linearize (IZR v1 / 255) < linearize (IZR v2 / 255).
Proof.
  intros Hlt.
  destruct (Z_le_gt_dec v2 10) as [H2 | H2].
  - apply linearize_increasing_low.
    + apply IZR_lt in Hlt. lra.
    + now apply channel_on_linear_part.
  - destruct (Z_le_gt_dec 11 v1) as [H1 | H1].
    + apply linearize_increasing_high.
      * now apply channel_on_power_part.
      * apply IZR_lt in Hlt. lra.
    + assert (Ha : linearize (IZR v1 / 255) <= linearize (10 / 255)).
      { destruct (Z.eq_dec v1 10) as [-> | Hne]; [lra|].
        left. apply linearize_increasing_low; [|lra].
        assert (Hv : (v1 < 10)%Z) by lia. apply IZR_lt in Hv. lra. }
      assert (Hb : linearize (11 / 255) <= linearize (IZR v2 / 255)).
      { destruct (Z.eq_dec v2 11) as [-> | Hne]; [lra|].
        left. apply linearize_increasing_high; [lra|].
        assert (Hv : (11 < v2)%Z) by lia. apply IZR_lt in Hv. lra. }
      pose proof linearize_across. lra.
Qed.

(** The near-white gray of the specification's end-to-end example is a
    light colour. *)
Example gray_240_is_light : 0.7 < get_luminance (240, 240, 240)%Z.
Proof.
  rewrite gray_luminance, linearize_high by lra.
  apply Rpower_above; lra.
Qed.

End Luminance.

(** ** Sorting by a key *)

Section ByKeyFacts.
Context {A K : Type}.
Variable key : A -> K.
Variable ltb : K -> K -> bool.

Hypothesis ltb_asym : forall a b, ltb a b = true -> ltb b a = false.

Lemma insert_by_key_permutation (x : A) (l : list A) :
  Permutation (insert_by_key key ltb x l) (x :: l).
Proof.
  induction l as [|y ys IH]; simpl; [reflexivity|].
  destruct (ltb (key y) (key x)); [|reflexivity].
  rewrite IH. apply perm_swap.
Qed.

Lemma sorted_permutation (l : list A) : Permutation (sorted key ltb l) l.
Proof.
  induction l as [|x xs IH]; simpl; [reflexivity|].
  rewrite insert_by_key_permutation. now constructor.
Qed.

Lemma insert_by_key_head (x y : A) (l : list A) :
  (key_le key ltb) y x -> HdRel (key_le key ltb) y l -> HdRel (key_le key ltb) y (insert_by_key key ltb x l).
Proof.
  intros Hyx Hl. destruct l as [|z zs]; simpl; [now constructor|].
  destruct (ltb (key z) (key x)); constructor; [now inversion Hl | exact Hyx].
Qed.

Lemma insert_by_key_sorted (x : A) (l : list A) :
  Sorted (key_le key ltb) l -> Sorted (key_le key ltb) (insert_by_key key ltb x l).
Proof.
  induction 1 as [|y ys Hys IH Hhd]; simpl; [repeat constructor|].
  destruct (ltb (key y) (key x)) eqn:E.
  - constructor; [exact IH|]. apply insert_by_key_head; [|exact Hhd].
    unfold key_le. now apply ltb_asym.
  - constructor; [now constructor|]. now constructor.
Qed.

Lemma sorted_is_sorted (l : list A) : Sorted (key_le key ltb) (sorted key ltb l).
Proof.
  induction l as [|x xs IH]; simpl; [constructor|].
  now apply insert_by_key_sorted.
Qed.

(** Stability, in the form used below: a list already in order is returned
    as it is. *)
Lemma sorted_of_sorted (l : list A) : Sorted (key_le key ltb) l -> sorted key ltb l = l.
Proof.
  induction 1 as [|x xs Hxs IH Hhd]; simpl; [reflexivity|].
  rewrite IH. destruct Hhd as [|y ys Hxy]; simpl; [reflexivity|].
  unfold key_le in Hxy. now rewrite Hxy.
Qed.

End ByKeyFacts.

Lemma enumerate_nth {A : Type} (l : list A) :
  forall start i,
    nth_error (enumerate start l) i
    = option_map (fun x => ((start + i)%nat, x)) (nth_error l i).
Proof.
  induction l as [|x xs IH]; intros start i.
  - now destruct i.
  - destruct i as [|i]; simpl.
    + now rewrite Nat.add_0_r.
    + rewrite IH. now rewrite Nat.add_succ_r.
Qed.

Lemma Rltb_true (x y : R) : Rltb x y = true <-> (x < y)%R.
Proof. unfold Rltb. destruct (Rlt_dec x y); split; auto; discriminate. Qed.

Lemma Rltb_false (x y : R) : Rltb x y = false <-> (y <= x)%R.
Proof.
  unfold Rltb. destruct (Rlt_dec x y); split; intros H; try discriminate;
    try reflexivity; lra.
Qed.

Lemma sorted_by_luminance (l : list color) :
  StronglySorted luminance_le (sorted get_luminance Rltb l).
Proof.
  apply Sorted_StronglySorted.
  - intros x y z Hxy Hyz. unfold luminance_le in *. lra.
  - eapply Sorted_ind with (P := fun l => Sorted luminance_le l);
      [constructor | | apply (sorted_is_sorted get_luminance Rltb)].
    + intros a l0 _ IH Hhd. constructor; [exact IH|].
      destruct Hhd as [|b l1 Hab]; constructor.
      unfold key_le in Hab. apply Rltb_false in Hab. exact Hab.
    + intros a b Hab. apply Rltb_true in Hab. apply Rltb_false. lra.
Qed.

(** ** The emitter *)

Section Emitter.
Local Open Scope string_scope.

Lemma generate_css_variables_text (cat : categorized) :
  fst (generate_css_variables cat)
  = join_lines (css_block (primary cat)
                  (sorted get_luminance Rltb (neutral cat)) (accent cat)).
Proof.
  unfold generate_css_variables, bind, lookup, ret, css_block. simpl fst.
  now rewrite <- !app_assoc.
Qed.

(** The name of a neutral line follows the luminance thresholds. *)
Lemma neutral_line_name (i : nat) (rgb : color) :
  exists prefix,
    neutral_line (i, rgb)
    = "  --color-" ++ prefix ++ "-" ++ str_of_nat i ++ ": " ++ rgb_to_hex rgb ++ ";"
    /\ ((0.7 < get_luminance rgb)%R -> prefix = "light")
    /\ ((get_luminance rgb < 0.3)%R -> prefix = "dark")
    /\ ((0.3 <= get_luminance rgb <= 0.7)%R -> prefix = "neutral").
Proof.
  unfold neutral_line.
  destruct (Rltb 0.7 (get_luminance rgb)) eqn:Hhi.
  - apply Rltb_true in Hhi. exists "light". repeat split; intros; try reflexivity; lra.
  - apply Rltb_false in Hhi.
    destruct (Rltb (get_luminance rgb) 0.3) eqn:Hlo.
    + apply Rltb_true in Hlo. exists "dark". repeat split; intros; try reflexivity; lra.
    + apply Rltb_false in Hlo. exists "neutral".
      repeat split; intros; try reflexivity; lra.
Qed.

(** C6: the CSS block holds, between the [primary] and the [accent] lines,
    one line per colour of the [neutral] bucket, in ascending order of
    relative luminance; the line at position [N] (counted from 1) is named
    [light-N] when the luminance is above 0.7, [dark-N] when it is below 0.3
    and [neutral-N] otherwise. *)
Theorem neutrals_by_luminance (cat : categorized) :
  exists neutrals,
    Permutation neutrals (neutral cat)
    /\ StronglySorted luminance_le neutrals
    /\ fst (generate_css_variables cat)
       = join_lines (css_block (primary cat) neutrals (accent cat))
    /\ forall i rgb,
         nth_error neutrals i = Some rgb ->
         exists prefix,
           nth_error (map neutral_line (enumerate 1 neutrals)) i
           = Some ("  --color-" ++ prefix ++ "-" ++ str_of_nat (S i) ++ ": "
                   ++ rgb_to_hex rgb ++ ";")
           /\ ((0.7 < get_luminance rgb)%R -> prefix = "light")
           /\ ((get_luminance rgb < 0.3)%R -> prefix = "dark")
           /\ ((0.3 <= get_luminance rgb <= 0.7)%R -> prefix = "neutral").
Proof.
  exists (sorted get_luminance Rltb (neutral cat)).
  split; [apply sorted_permutation|].
  split; [apply sorted_by_luminance|].
  split; [apply generate_css_variables_text|].
  intros i rgb Hnth.
  destruct (neutral_line_name (S i) rgb) as (prefix & Hline & Hnames).
  exists prefix. split; [|exact Hnames].
  rewrite nth_error_map, enumerate_nth, Hnth. cbn [option_map].
  change (1 + i)%nat with (S i). now rewrite Hline.
Qed.

(** Both functions of the emitter return the dictionary as they received it. *)
Lemma generate_css_variables_frame (cat : categorized) :
  snd (generate_css_variables cat) = cat.
Proof. reflexivity. Qed.

Lemma generate_usage_example_frame (cat : categorized) :
  snd (generate_usage_example cat) = cat.
Proof. reflexivity. Qed.

Example css_of_red_and_gray :
  fst (generate_css_variables (categorize_colors [(200, 50, 50); (240, 240, 240)]))
  = join_lines ["/* Color Palette - Generated from screenshot */";
                ":root {";
                "  --color-primary-1: #c83232;";
                "  --color-light-1: #f0f0f0;";
                closing].
Proof.
  rewrite generate_css_variables_text, categorize_red_and_gray.
  unfold css_block, sorted.
  cbn [primary neutral accent fold_right insert_by_key enumerate map app].
  unfold neutral_line.
  rewrite (proj2 (Rltb_true _ _) gray_240_is_light). reflexivity.
Qed.

End Emitter.

(** ** The neutral bucket in input order *)

Lemma neutral_from_filter (colors : list color) :
  forall cat,
    neutral (categorize_from cat colors) = neutral cat ++ filter dull colors.
Proof.
  induction colors as [|rgb rest IH]; intros cat.
  - simpl. now rewrite app_nil_r.
  - rewrite categorize_from_cons, IH. unfold dull at 2. simpl filter.
    step_cases cat rgb; rewrite Hstep, Hgray; try rewrite Hsat; simpl;
      now rewrite <- ?app_assoc.
Qed.

Lemma neutral_is_filter (colors : list color) :
  neutral (categorize_colors colors) = filter dull colors.
Proof. apply (neutral_from_filter colors empty_categorized). Qed.

(** ** [main] and the JSON sidecar *)

Section Main.
Local Open Scope string_scope.

Variable extract_palette : string -> Z -> extraction.

Lemma main_writes (args : arguments) (colors : list color) :
  extract_palette (image args) (num_colors args) = Returns colors ->
  main extract_palette args
  = mk_outcome (Some 0%Z)
      ((output args, css_text (categorize_colors colors))
       :: if json args
          then [(json_file args,
                 json_dump (json_output (categorize_colors colors) colors))]
          else []).
Proof.
  intros Hret. unfold main. rewrite Hret.
  rewrite (surjective_pairing (generate_css_variables (categorize_colors colors))).
  rewrite generate_css_variables_frame.
  rewrite (surjective_pairing (generate_usage_example (categorize_colors colors))).
  rewrite generate_usage_example_frame.
  unfold css_text. now destruct (json args).
Qed.

Lemma css_text_head (cat : categorized) :
  exists rest, css_text cat = String "/" rest.
Proof.
  unfold css_text. rewrite generate_css_variables_text.
  unfold css_block, css_header, join_lines. cbn [app String.concat append].
  eexists. reflexivity.
Qed.

Lemma json_dump_head (cat : categorized) (colors : list color) :
  exists rest, json_dump (json_output cat colors) = String "{" rest.
Proof. unfold json_output, json_dump. cbn [append]. eexists. reflexivity. Qed.

Lemma css_text_is_not_json (cat cat' : categorized) (colors : list color) :
  css_text cat <> json_dump (json_output cat' colors).
Proof.
  destruct (css_text_head cat) as [r1 H1].
  destruct (json_dump_head cat' colors) as [r2 H2].
  rewrite H1, H2. discriminate.
Qed.

Lemma json_output_keys (cat : categorized) (colors : list color) :
  map fst (json_output cat colors) = ["primary"; "neutral"; "accent"; "all_colors"]
  /\ dict_get "primary" (json_output cat colors) = Some (map rgb_to_hex (primary cat))
  /\ dict_get "neutral" (json_output cat colors) = Some (map rgb_to_hex (neutral cat))
  /\ dict_get "accent" (json_output cat colors) = Some (map rgb_to_hex (accent cat))
  /\ dict_get "all_colors" (json_output cat colors) = Some (map rgb_to_hex colors).
Proof. repeat split. Qed.

(** For an output path that ends in [.css] and holds [.css] nowhere else,
    the sidecar has the same name with the extension [.json]. *)
Lemma str_replace_extension (stem : string) :
  css_only_at_end stem ->
  str_replace (stem ++ ".css") ".css" ".json" = stem ++ ".json".
Proof.
  unfold str_replace. induction stem as [|c stem' IH]; intros Hstem.
  - reflexivity.
  - destruct Hstem as [Hhere Hrest].
    change (String c stem' ++ ".css") with (String c (stem' ++ ".css")) in *.
    cbn [replace_from]. rewrite Hhere. cbn [append]. f_equal. now apply IH.
Qed.

End Main.

Lemma gray_luminance_lt (v1 v2 : Z) :
  v1 < v2 -> Rltb (get_luminance (v1, v1, v1)) (get_luminance (v2, v2, v2)) = true.
Proof.
  intros H. apply Rltb_true. rewrite !gray_luminance.
  now apply linearize_channel_increasing.
Qed.

Example sorted_reorders_neutrals :
  sorted get_luminance Rltb [(200, 200, 200); (50, 50, 50)]
  = [(50, 50, 50); (200, 200, 200)].
Proof.
  unfold sorted. cbn [fold_right insert_by_key].
  rewrite (gray_luminance_lt 50 200) by lia. reflexivity.
Qed.

(** C10: the emitter leaves every palette as it receives it, so that in a
    run with [--json] the [neutral] array of the sidecar lists the neutral
    colours in the order of classification, which is their order in the
    input, whatever order the CSS block gives them. *)
Theorem sidecar_keeps_classification_order
    (extract_palette : string -> Z -> extraction) (args : arguments)
    (colors : list color) :
  extract_palette (image args) (num_colors args) = Returns colors ->
  json args = true ->
  (forall cat, snd (generate_css_variables cat) = cat
               /\ snd (generate_usage_example cat) = cat)
  /\ exists obj,
       writes (main extract_palette args)
       = [(output args, css_text (categorize_colors colors));
          (json_file args, json_dump obj)]
       /\ dict_get "neutral" obj
          = Some (map rgb_to_hex (neutral (categorize_colors colors)))
       /\ neutral (categorize_colors colors) = filter dull colors.
Proof.
  intros Hret Hjson. split.
  - intros cat. split; reflexivity.
  - exists (json_output (categorize_colors colors) colors).
    rewrite (main_writes extract_palette args colors Hret), Hjson.
    repeat split. apply neutral_is_filter.
Qed.

Lemma sidecar_keeps_classification_order_witness :
  (forall cat, snd (generate_css_variables cat) = cat
               /\ snd (generate_usage_example cat) = cat)
  /\ exists obj,
       writes (main (fun _ _ => Returns [(200, 200, 200); (50, 50, 50)])
                 (mk_arguments "shot.png" "palette.css" 8 true))
       = [("palette.css"%string,
           css_text (categorize_colors [(200, 200, 200); (50, 50, 50)]));
          (json_file (mk_arguments "shot.png" "palette.css" 8 true), json_dump obj)]
       /\ dict_get "neutral" obj
          = Some (map rgb_to_hex
                    (neutral (categorize_colors [(200, 200, 200); (50, 50, 50)])))
       /\ neutral (categorize_colors [(200, 200, 200); (50, 50, 50)])
          = filter dull [(200, 200, 200); (50, 50, 50)].
Proof.
  apply (sidecar_keeps_classification_order
           (fun _ _ => Returns [(200, 200, 200); (50, 50, 50)])
           (mk_arguments "shot.png" "palette.css" 8 true)
           [(200, 200, 200); (50, 50, 50)]).
  - reflexivity.
  - reflexivity.
Defined.

(** The sidecar of that run lists the light gray before the dark gray, as
    the input does; the CSS block has them the other way round
    ([sorted_reorders_neutrals]). *)
Example sidecar_neutral_sample :
  dict_get "neutral"
    (json_output (categorize_colors [(200, 200, 200); (50, 50, 50)])
       [(200, 200, 200); (50, 50, 50)])
  = Some ["#c8c8c8"; "#323232"]%string.
Proof. vm_compute. reflexivity. Qed.

(** C9, the path of the sidecar. [main] replaces every occurrence of [.css]
    in the output path, and none when there is none. With [.css] in a
    directory name the sidecar goes to another directory, and with [.css]
    twice in the file name the stem of the name changes; with the output
    path [palette.txt] the sidecar is written to [palette.txt] itself, after
    the CSS text, which is lost, and no file [palette.json] is written. *)
Theorem sidecar_path_replaces_every_css :
  let extract_palette := fun (_ : string) (_ : Z) => Returns [(200, 50, 50); (240, 240, 240)] in
  let args := mk_arguments "shot.png" "palette.txt" 8 true in
  let cat := categorize_colors [(200, 50, 50); (240, 240, 240)] in
  let json_text := json_dump (json_output cat [(200, 50, 50); (240, 240, 240)]) in
  (json_file (mk_arguments "shot.png" "site.css.d/palette.css" 8 true)
   = "site.json.d/palette.json"%string
   /\ json_file (mk_arguments "shot.png" "site.css.d/palette.css" 8 true)
      <> "site.css.d/palette.json"%string)
  /\ (json_file (mk_arguments "shot.png" "theme.css.css" 8 true)
      = "theme.json.json"%string
      /\ json_file (mk_arguments "shot.png" "theme.css.css" 8 true)
         <> "theme.css.json"%string)
  /\ json_file args = "palette.txt"%string
  /\ main extract_palette args
     = mk_outcome (Some 0)
         [("palette.txt"%string, css_text cat); ("palette.txt"%string, json_text)]
  /\ file_after (writes (main extract_palette args)) "palette.txt" = Some json_text
  /\ css_text cat <> json_text
  /\ file_after (writes (main extract_palette args)) "palette.json" = None.
Proof.
  cbv zeta.
  assert (Hmain :
    main (fun _ _ => Returns [(200, 50, 50); (240, 240, 240)])
      (mk_arguments "shot.png" "palette.txt" 8 true)
    = mk_outcome (Some 0)
        [("palette.txt"%string,
          css_text (categorize_colors [(200, 50, 50); (240, 240, 240)]));
         ("palette.txt"%string,
          json_dump (json_output (categorize_colors [(200, 50, 50); (240, 240, 240)])
                       [(200, 50, 50); (240, 240, 240)]))]).
  { rewrite (main_writes _ _ [(200, 50, 50); (240, 240, 240)]); reflexivity. }
  split; [split; [reflexivity | discriminate]|].
  split; [split; [reflexivity | discriminate]|].
  split; [reflexivity|]. split; [exact Hmain|]. rewrite Hmain.
  split; [reflexivity|]. split; [apply css_text_is_not_json|].
  reflexivity.
Qed.

(** With the default output path, and with any path that holds [.css] at
    its end only, the sidecar path is the output path with the extension
    changed. *)
Example sidecar_path_default :
  json_file (mk_arguments "shot.png" "color_palette.css" 8 true)
  = "color_palette.json"%string.
Proof. reflexivity. Qed.

(** * Further properties of the code *)

(** ** The categoriser in closed form *)

Lemma categorize_from_closed_form (colors : list color) :
  forall cat,
    categorize_from cat colors
    = mk_categorized
        (primary cat
         ++ firstn (2 - List.length (primary cat)) (filter vivid_test colors))
        (neutral cat ++ filter dull colors)
        (accent cat
         ++ skipn (2 - List.length (primary cat)) (filter vivid_test colors)).
Proof.
  induction colors as [|rgb rest IH]; intros cat.
  - cbn [filter]. rewrite firstn_nil, skipn_nil, !app_nil_r. now destruct cat.
  - rewrite categorize_from_cons, IH. cbn [filter]. unfold vivid_test, dull.
    step_cases cat rgb; rewrite Hstep, Hgray; try rewrite Hsat;
      cbn [negb andb orb]; unfold append_neutral, append_primary, append_accent;
      cbn [primary neutral accent]; rewrite <- ?app_assoc; try reflexivity.
    + rewrite length_app. cbn [List.length].
      replace (2 - List.length (primary cat))%nat
        with (S (2 - (List.length (primary cat) + 1)))%nat by lia.
      reflexivity.
    + replace (2 - List.length (primary cat))%nat with 0%nat by lia.
      reflexivity.
Qed.

(** The result of the categoriser as a function of the input alone:
    [neutral] holds the colours that pass the grayscale test or fail the
    saturation test, [primary] the first two of the others and [accent] the
    rest of them, each bucket in the order of the input. *)
Theorem categorize_colors_closed_form (colors : list color) :
  categorize_colors colors
  = mk_categorized
      (firstn 2 (filter vivid_test colors))
      (filter dull colors)
      (skipn 2 (filter vivid_test colors)).
Proof.
  unfold categorize_colors. rewrite categorize_from_closed_form. reflexivity.
Qed.

(** [accent] is used only once [primary] is full: a result with a colour in
    [accent] has exactly two colours in [primary]. *)
Theorem accent_only_after_primary (colors : list color) :
  accent (categorize_colors colors) <> [] ->
  List.length (primary (categorize_colors colors)) = 2%nat.
Proof.
  unfold categorize_colors. rewrite categorize_from_closed_form.
  cbn [primary accent empty_categorized app List.length Nat.sub].
  intros Hacc. rewrite length_firstn.
  destruct (Nat.le_gt_cases 2 (List.length (filter vivid_test colors))) as [H | H];
    [lia|].
  exfalso. apply Hacc. apply skipn_all2. lia.
Qed.

Lemma accent_only_after_primary_witness :
  List.length
    (primary (categorize_colors [(200, 50, 50); (50, 200, 50); (50, 50, 200)]))
  = 2%nat.
Proof.
  apply (accent_only_after_primary [(200, 50, 50); (50, 200, 50); (50, 50, 200)]).
  vm_compute. discriminate.
Defined.

(** ** The tests of the categoriser *)

Lemma saturated_exact_witness :
  saturated (200, 50, 50) = true
  <-> 3 * max_channel (200, 50, 50)
      < 10 * (max_channel (200, 50, 50) - min_channel (200, 50, 50)).
Proof.
  apply (saturated_exact (200, 50, 50)).
  unfold color_ok, channel_ok, red, green, blue. simpl. lia.
Defined.

(** [is_grayscale] and its [threshold] argument: with a threshold of 0 or
    less nothing is grayscale, with a positive threshold every gray
    [(v, v, v)] is, and a larger threshold accepts at least the same
    colours. The test does not depend on the order of the channels. *)
Theorem is_grayscale_threshold (r g b threshold : Z) :
  (threshold <= 0 -> is_grayscale (r, g, b) threshold = false)
  /\ (0 < threshold -> is_grayscale (r, r, r) threshold = true)
  /\ (forall larger, threshold <= larger ->
        is_grayscale (r, g, b) threshold = true ->
        is_grayscale (r, g, b) larger = true)
  /\ is_grayscale (g, r, b) threshold = is_grayscale (r, g, b) threshold
  /\ is_grayscale (r, b, g) threshold = is_grayscale (r, g, b) threshold.
Proof.
  unfold is_grayscale. repeat split.
  - intros H. rewrite !andb_false_iff, !Z.ltb_ge. lia.
  - intros H. rewrite !andb_true_iff, !Z.ltb_lt. lia.
  - intros larger Hle. rewrite !andb_true_iff, !Z.ltb_lt. lia.
  - apply eq_true_iff_eq. rewrite !andb_true_iff, !Z.ltb_lt. lia.
  - apply eq_true_iff_eq. rewrite !andb_true_iff, !Z.ltb_lt. lia.
Qed.

Lemma is_grayscale_threshold_witness :
  is_grayscale (7, 7, 7) 0 = false
  /\ is_grayscale (7, 7, 7) 1 = true
  /\ is_grayscale (100, 104, 102) 10 = true.
Proof.
  split; [|split].
  - apply (proj1 (is_grayscale_threshold 7 7 7 0)). lia.
  - apply (proj1 (proj2 (is_grayscale_threshold 7 7 7 1))). lia.
  - apply (proj1 (proj2 (proj2 (is_grayscale_threshold 100 104 102 5))) 10).
    + lia.
    + reflexivity.
Defined.

(** ** [rgb_to_hex] on 8-bit colours *)

Lemma format_table : format_table_ok = true.
Proof. vm_compute. reflexivity. Qed.

Lemma format_02x_channel (a : Z) :
  channel_ok a ->
  String.length (format_02x a) = 2%nat
  /\ string_forallb is_hex_digit (format_02x a) = true
  /\ forall b, channel_ok b -> format_02x a = format_02x b -> a = b.
Proof.
  intros Ha.
  pose proof format_table as T. unfold format_table_ok in T.
  rewrite forallb_forall in T.
  specialize (T a (channel_values_complete a Ha)).
  apply andb_true_iff in T. destruct T as [T Tinj].
  apply andb_true_iff in T. destruct T as [Tlen Thex].
  split; [now apply Nat.eqb_eq|]. split; [exact Thex|].
  intros b Hb Heq.
  rewrite forallb_forall in Tinj.
  specialize (Tinj b (channel_values_complete b Hb)).
  rewrite Heq, String.eqb_refl in Tinj. now apply Z.eqb_eq.
Qed.

Lemma string_forallb_app (p : ascii -> bool) (s t : string) :
  string_forallb p (s ++ t) = string_forallb p s && string_forallb p t.
Proof.
  induction s as [|c s IH]; simpl; [reflexivity|].
  now rewrite IH, andb_assoc.
Qed.

Lemma string_length_app (s t : string) :
  String.length (s ++ t) = (String.length s + String.length t)%nat.
Proof. induction s as [|c s IH]; simpl; [reflexivity | now rewrite IH]. Qed.

Lemma string_app_inj (s s' t t' : string) :
  String.length s = String.length s' ->
  (s ++ t = s' ++ t')%string -> s = s' /\ t = t'.
Proof.
  revert s'. induction s as [|c s IH]; intros [|c' s'] Hlen Heq;
    try discriminate Hlen.
  - now split.
  - simpl in Heq. injection Heq as -> Heq. injection Hlen as Hlen.
    destruct (IH s' Hlen Heq) as [-> ->]. now split.
Qed.

(** For a colour with 8-bit channels [rgb_to_hex] gives [#] and six
    characters of [0123456789abcdef]. *)
Theorem rgb_to_hex_shape (rgb : color) :
  color_ok rgb ->
  exists digits,
    rgb_to_hex rgb = String "#" digits
    /\ String.length digits = 6%nat
    /\ string_forallb is_hex_digit digits = true.
Proof.
  destruct rgb as [[r g] b]. intros (Hr & Hg & Hb).
  unfold red, green, blue in *. cbn [fst snd] in *.
  destruct (format_02x_channel r Hr) as (Lr & Xr & _).
  destruct (format_02x_channel g Hg) as (Lg & Xg & _).
  destruct (format_02x_channel b Hb) as (Lb & Xb & _).
  eexists. split; [reflexivity|]. split.
  - rewrite !string_length_app, Lr, Lg, Lb. reflexivity.
  - rewrite !string_forallb_app, Xr, Xg, Xb. reflexivity.
Qed.

Lemma rgb_to_hex_shape_witness :
  exists digits,
    rgb_to_hex (18, 52, 86) = String "#" digits
    /\ String.length digits = 6%nat
    /\ string_forallb is_hex_digit digits = true.
Proof.
  apply (rgb_to_hex_shape (18, 52, 86)).
  unfold color_ok, channel_ok, red, green, blue. simpl. lia.
Defined.

(** On colours with 8-bit channels [rgb_to_hex] loses nothing: two such
    colours with the same text are the same colour. *)
Theorem rgb_to_hex_injective (c1 c2 : color) :
  color_ok c1 -> color_ok c2 -> rgb_to_hex c1 = rgb_to_hex c2 -> c1 = c2.
Proof.
  destruct c1 as [[r1 g1] b1], c2 as [[r2 g2] b2].
  intros (Hr1 & Hg1 & Hb1) (Hr2 & Hg2 & Hb2) Heq.
  unfold red, green, blue in *. cbn [fst snd] in *.
  unfold rgb_to_hex in Heq. injection Heq as Heq.
  destruct (format_02x_channel r1 Hr1) as (Lr1 & _ & Ir).
  destruct (format_02x_channel g1 Hg1) as (Lg1 & _ & Ig).
  destruct (format_02x_channel b1 Hb1) as (_ & _ & Ib).
  destruct (format_02x_channel r2 Hr2) as (Lr2 & _ & _).
  destruct (format_02x_channel g2 Hg2) as (Lg2 & _ & _).
  apply string_app_inj in Heq; [|congruence]. destruct Heq as [Er Heq].
  apply string_app_inj in Heq; [|congruence]. destruct Heq as [Eg Eb].
  rewrite (Ir r2 Hr2 Er), (Ig g2 Hg2 Eg), (Ib b2 Hb2 Eb). reflexivity.
Qed.

Lemma rgb_to_hex_injective_witness : (200, 50, 50) = (200, 50, 50).
Proof.
  apply (rgb_to_hex_injective (200, 50, 50) (200, 50, 50)).
  - unfold color_ok, channel_ok, red, green, blue. simpl. lia.
  - unfold color_ok, channel_ok, red, green, blue. simpl. lia.
  - reflexivity.
Defined.

(** Outside the 8-bit range the text can have more than six digits, and then
    it no longer tells the channels apart. *)
Example rgb_to_hex_out_of_range :
  rgb_to_hex (291, 69, 103) = "#1234567"%string
  /\ rgb_to_hex (18, 837, 103) = "#1234567"%string.
Proof. split; reflexivity. Qed.

(** ** The declarations of the CSS block *)

Section Declarations.
Local Open Scope string_scope.

Lemma to_uint_not_nil (n : nat) : Nat.to_uint n <> Decimal.Nil.
Proof.
  rewrite <- (DecimalNat.Unsigned.of_to n) at 1.
  rewrite DecimalNat.Unsigned.to_of. unfold Decimal.unorm.
  destruct (Decimal.nzhead (Nat.to_uint n)); discriminate.
Qed.

Lemma str_of_nat_inj (i j : nat) : str_of_nat i = str_of_nat j -> i = j.
Proof.
  unfold str_of_nat. intros H.
  apply DecimalNat.Unsigned.to_uint_inj.
  pose proof (DecimalString.NilZero.usu _ (to_uint_not_nil i)) as Hi.
  pose proof (DecimalString.NilZero.usu _ (to_uint_not_nil j)) as Hj.
  rewrite H in Hi. rewrite Hi in Hj. now injection Hj.
Qed.

Lemma enumerate_index {A : Type} (l : list A) :
  forall start i x, In (i, x) (enumerate start l) -> (start <= i)%nat.
Proof.
  induction l as [|y ys IH]; intros start i x Hin; [destruct Hin|].
  destruct Hin as [[= <- _] | Hin]; [lia|].
  apply IH in Hin. lia.
Qed.

Lemma enumerate_snd {A B : Type} (g : nat * A -> B) (l : list A) :
  forall start, map snd (map (fun e => (g e, snd e)) (enumerate start l)) = l.
Proof.
  induction l as [|y ys IH]; intros start; simpl; [reflexivity|].
  now rewrite IH.
Qed.

(** Names that determine their index are pairwise different along an
    enumeration. *)
Lemma enumerate_names_nodup {A : Type} (g : nat * A -> string) (l : list A) :
  (forall i x j y, g (i, x) = g (j, y) -> i = j) ->
  forall start, NoDup (map g (enumerate start l)).
Proof.
  intros Hinj. induction l as [|y ys IH]; intros start; simpl; constructor.
  - intros Hin. apply in_map_iff in Hin. destruct Hin as ([j z] & Heq & Hin).
    apply Hinj in Heq. subst j. apply enumerate_index in Hin. lia.
  - apply IH.
Qed.

Lemma primary_name_inj (i j : nat) : primary_name i = primary_name j -> i = j.
Proof. unfold primary_name. intros [= H]. now apply str_of_nat_inj. Qed.

Lemma accent_name_inj (i j : nat) : accent_name i = accent_name j -> i = j.
Proof. unfold accent_name. intros [= H]. now apply str_of_nat_inj. Qed.

Lemma neutral_name_inj (i j : nat) (x y : color) :
  neutral_name i x = neutral_name j y -> i = j.
Proof.
  unfold neutral_name.
  destruct (Rltb 0.7 (get_luminance x)), (Rltb (get_luminance x) 0.3),
    (Rltb 0.7 (get_luminance y)), (Rltb (get_luminance y) 0.3);
    intros [= H]; now apply str_of_nat_inj.
Qed.

Lemma primary_name_first (i : nat) : first_char (primary_name i) = Some "p"%char.
Proof. reflexivity. Qed.

Lemma accent_name_first (i : nat) : first_char (accent_name i) = Some "a"%char.
Proof. reflexivity. Qed.

Lemma neutral_name_first (i : nat) (x : color) :
  first_char (neutral_name i x) = Some "l"%char
  \/ first_char (neutral_name i x) = Some "d"%char
  \/ first_char (neutral_name i x) = Some "n"%char.
Proof.
  unfold neutral_name.
  destruct (Rltb 0.7 (get_luminance x)), (Rltb (get_luminance x) 0.3); auto.
Qed.

Lemma css_block_declarations (cat : categorized) :
  css_block (primary cat) (sorted get_luminance Rltb (neutral cat)) (accent cat)
  = (css_header ++ map declaration (css_entries cat) ++ [closing])%list.
Proof.
  unfold css_block, css_entries. rewrite !map_app, !map_map, <- !app_assoc.
  rewrite (map_ext primary_line
             (fun x => declaration (primary_name (fst x), snd x)))
    by (intros [i rgb]; reflexivity).
  rewrite (map_ext neutral_line
             (fun x => declaration (neutral_name (fst x) (snd x), snd x)))
    by (intros [i rgb]; reflexivity).
  rewrite (map_ext accent_line
             (fun x => declaration (accent_name (fst x), snd x)))
    by (intros [i rgb]; reflexivity).
  reflexivity.
Qed.

(** The CSS block declares every colour of the palette once, under a name
    that no other declaration of the block uses. *)
Theorem css_declares_each_color_once (cat : categorized) :
  fst (generate_css_variables cat)
  = join_lines (css_header ++ map declaration (css_entries cat) ++ [closing])%list
  /\ NoDup (map fst (css_entries cat))
  /\ Permutation (map snd (css_entries cat))
       (primary cat ++ neutral cat ++ accent cat)%list
  /\ List.length (css_entries cat)
     = (List.length (primary cat) + List.length (neutral cat)
        + List.length (accent cat))%nat.
Proof.
  assert (Hperm : Permutation (map snd (css_entries cat))
                    (primary cat ++ neutral cat ++ accent cat)%list).
  { unfold css_entries. rewrite !map_app, !enumerate_snd.
    apply Permutation_app_head, Permutation_app_tail, sorted_permutation. }
  split; [|split; [|split; [exact Hperm|]]].
  - rewrite generate_css_variables_text. now rewrite css_block_declarations.
  - unfold css_entries. rewrite !map_app, !map_map. cbn [fst].
    apply NoDup_app; [|apply NoDup_app|].
    + apply (enumerate_names_nodup (fun e => primary_name (fst e))).
      intros i x j y. apply primary_name_inj.
    + apply (enumerate_names_nodup (fun e => neutral_name (fst e) (snd e))).
      intros i x j y. apply neutral_name_inj.
    + apply (enumerate_names_nodup (fun e => accent_name (fst e))).
      intros i x j y. apply accent_name_inj.
    + intros name Hn Ha.
      apply in_map_iff in Hn. destruct Hn as ([i x] & <- & _).
      apply in_map_iff in Ha. destruct Ha as ([j y] & Heq & _).
      cbn [fst snd] in Heq. apply (f_equal first_char) in Heq.
      rewrite accent_name_first in Heq.
      destruct (neutral_name_first i x) as [H | [H | H]];
        rewrite H in Heq; discriminate.
    + intros name Hp Hrest.
      apply in_map_iff in Hp. destruct Hp as ([i x] & <- & _).
      cbn [fst snd] in Hrest. apply in_app_or in Hrest.
      destruct Hrest as [Hn | Ha].
      * apply in_map_iff in Hn. destruct Hn as ([j y] & Heq & _).
        cbn [fst snd] in Heq. apply (f_equal first_char) in Heq.
        rewrite primary_name_first in Heq.
        destruct (neutral_name_first j y) as [H | [H | H]];
          rewrite H in Heq; discriminate.
      * apply in_map_iff in Ha. destruct Ha as ([j y] & Heq & _).
        cbn [fst snd] in Heq. apply (f_equal first_char) in Heq.
        rewrite primary_name_first, accent_name_first in Heq. discriminate.
  - apply Permutation_length in Hperm.
    rewrite length_map, !length_app in Hperm. lia.
Qed.

End Declarations.

(** ** The usage example *)

Section UsageExample.
Local Open Scope string_scope.

Lemma max_from_luminance (rest : list color) :
  forall first,
    In (max_from get_luminance Rltb first rest) (first :: rest)
    /\ forall x, In x (first :: rest) ->
         (get_luminance x
          <= get_luminance (max_from get_luminance Rltb first rest))%R.
Proof.
  induction rest as [|y ys IH]; intros first.
  - split; [now left|]. intros x [<- | []]. unfold max_from. cbn [fold_left]. lra.
  - change (max_from get_luminance Rltb first (y :: ys))
      with (max_from get_luminance Rltb
              (if Rltb (get_luminance first) (get_luminance y) then y else first) ys).
    destruct (Rltb (get_luminance first) (get_luminance y)) eqn:E.
    + apply Rltb_true in E. destruct (IH y) as [Hin Hmax]. split.
      * right. exact Hin.
      * intros x [<- | Hx]; [|now apply Hmax].
        specialize (Hmax y (or_introl eq_refl)). lra.
    + apply Rltb_false in E. destruct (IH first) as [Hin Hmax]. split.
      * destruct Hin as [<- | Hin]; [now left | right; now right].
      * intros x [<- | [<- | Hx]].
        -- apply Hmax. now left.
        -- specialize (Hmax first (or_introl eq_refl)). lra.
        -- apply Hmax. now right.
Qed.

Lemma min_from_luminance (rest : list color) :
  forall first,
    In (min_from get_luminance Rltb first rest) (first :: rest)
    /\ forall x, In x (first :: rest) ->
         (get_luminance (min_from get_luminance Rltb first rest)
          <= get_luminance x)%R.
Proof.
  induction rest as [|y ys IH]; intros first.
  - split; [now left|]. intros x [<- | []]. unfold min_from. cbn [fold_left]. lra.
  - change (min_from get_luminance Rltb first (y :: ys))
      with (min_from get_luminance Rltb
              (if Rltb (get_luminance y) (get_luminance first) then y else first) ys).
    destruct (Rltb (get_luminance y) (get_luminance first)) eqn:E.
    + apply Rltb_true in E. destruct (IH y) as [Hin Hmin]. split.
      * right. exact Hin.
      * intros x [<- | Hx]; [|now apply Hmin].
        specialize (Hmin y (or_introl eq_refl)). lra.
    + apply Rltb_false in E. destruct (IH first) as [Hin Hmin]. split.
      * destruct Hin as [<- | Hin]; [now left | right; now right].
      * intros x [<- | [<- | Hx]].
        -- apply Hmin. now left.
        -- specialize (Hmin first (or_introl eq_refl)). lra.
        -- apply Hmin. now right.
Qed.

(** With a neutral colour in the palette, the [body] block of the usage
    example gives as background a neutral colour of the largest luminance and
    as text colour a neutral colour of the smallest luminance. *)
Theorem usage_example_picks_extremes (cat : categorized) :
  neutral cat <> [] ->
  exists bg text,
    In bg (neutral cat) /\ In text (neutral cat)
    /\ (forall x, In x (neutral cat) ->
          (get_luminance text <= get_luminance x <= get_luminance bg)%R)
    /\ fst (generate_usage_example cat)
       = join_lines
           (app ["/* Usage Examples */"; "body {";
             "  background-color: var(--color-light-1, " ++ rgb_to_hex bg ++ ");";
             "  color: var(--color-dark-1, " ++ rgb_to_hex text ++ ");";
             closing]
              (usage_tail cat)).
Proof.
  intros Hne. destruct (neutral cat) as [|c rest] eqn:En; [congruence|].
  destruct (max_from_luminance rest c) as [Hbg Hmax].
  destruct (min_from_luminance rest c) as [Htext Hmin].
  exists (max_from get_luminance Rltb c rest), (min_from get_luminance Rltb c rest).
  split; [exact Hbg|]. split; [exact Htext|]. split.
  - intros x Hx. split; [now apply Hmin | now apply Hmax].
  - unfold generate_usage_example, bind, lookup, ret, usage_tail. cbn [fst].
    rewrite En. destruct (primary cat), (accent cat); reflexivity.
Qed.

Lemma usage_example_picks_extremes_witness :
  exists bg text,
    In bg [(200, 200, 200); (50, 50, 50)] /\ In text [(200, 200, 200); (50, 50, 50)]
    /\ (forall x, In x [(200, 200, 200); (50, 50, 50)] ->
          (get_luminance text <= get_luminance x <= get_luminance bg)%R)
    /\ fst (generate_usage_example
              (mk_categorized [] [(200, 200, 200); (50, 50, 50)] []))
       = join_lines
           (app ["/* Usage Examples */"; "body {";
             "  background-color: var(--color-light-1, " ++ rgb_to_hex bg ++ ");";
             "  color: var(--color-dark-1, " ++ rgb_to_hex text ++ ");";
             closing]
              (usage_tail (mk_categorized [] [(200, 200, 200); (50, 50, 50)] []))).
Proof.
  apply (usage_example_picks_extremes
           (mk_categorized [] [(200, 200, 200); (50, 50, 50)] [])).
  simpl. discriminate.
Defined.

(** Without a neutral colour the [body] block of the usage example is empty. *)
Theorem usage_example_without_neutrals (cat : categorized) :
  neutral cat = [] ->
  fst (generate_usage_example cat)
  = join_lines (app ["/* Usage Examples */"; "body {"; closing]
              (usage_tail cat)).
Proof.
  intros En.
  unfold generate_usage_example, bind, lookup, ret, usage_tail. cbn [fst].
  rewrite En. destruct (primary cat), (accent cat); reflexivity.
Qed.

Lemma usage_example_without_neutrals_witness :
  fst (generate_usage_example (mk_categorized [(200, 50, 50)] [] []))
  = join_lines (app ["/* Usage Examples */"; "body {"; closing]
              (usage_tail (mk_categorized [(200, 50, 50)] [] []))).
Proof.
  apply (usage_example_without_neutrals (mk_categorized [(200, 50, 50)] [] [])).
  reflexivity.
Defined.

End UsageExample.

(** ** The variables the usage example refers to *)

Section LightAndDark.
Local Open Scope string_scope.

Lemma enumerate_first {A : Type} (l : list A) (start : nat) (x : A) :
  In (start, x) (enumerate start l) -> exists rest, l = x :: rest.
Proof.
  destruct l as [|y ys]; intros Hin; [destruct Hin|].
  destruct Hin as [[= <-] | Hin]; [now exists ys|].
  apply enumerate_index in Hin. lia.
Qed.

Lemma neutral_name_light (i : nat) (x : color) :
  neutral_name i x = "light-1" <-> i = 1%nat /\ (0.7 < get_luminance x)%R.
Proof.
  unfold neutral_name.
  destruct (Rltb 0.7 (get_luminance x)) eqn:Hhi.
  - apply Rltb_true in Hhi. split.
    + intros [= H]. split; [|exact Hhi].
      apply str_of_nat_inj. now rewrite H.
    + intros [-> _]. reflexivity.
  - apply Rltb_false in Hhi. split.
    + destruct (Rltb (get_luminance x) 0.3); discriminate.
    + intros [_ H]. lra.
Qed.

Lemma neutral_name_dark (i : nat) (x : color) :
  neutral_name i x = "dark-1" <-> i = 1%nat /\ (get_luminance x < 0.3)%R.
Proof.
  unfold neutral_name.
  destruct (Rltb 0.7 (get_luminance x)) eqn:Hhi.
  - apply Rltb_true in Hhi. split; [discriminate|]. intros [_ H]. lra.
  - destruct (Rltb (get_luminance x) 0.3) eqn:Hlo.
    + apply Rltb_true in Hlo. split.
      * intros [= H]. split; [|exact Hlo].
        apply str_of_nat_inj. now rewrite H.
      * intros [-> _]. reflexivity.
    + apply Rltb_false in Hlo. split; [discriminate|]. intros [_ H]. lra.
Qed.

(** A name that does not start like the names of [primary] and [accent] is
    declared exactly when it is the name of a neutral line. *)
Lemma neutral_names (cat : categorized) (name : string) :
  first_char name <> Some "p"%char -> first_char name <> Some "a"%char ->
  In name (map fst (css_entries cat))
  <-> exists i x,
        In (i, x) (enumerate 1 (sorted get_luminance Rltb (neutral cat)))
        /\ neutral_name i x = name.
Proof.
  intros Hp Ha. unfold css_entries. rewrite !map_app, !map_map, !in_app_iff.
  cbn [fst snd]. split.
  - intros [H | [H | H]]; apply in_map_iff in H; destruct H as ([i x] & Heq & Hin);
      cbn [fst snd] in Heq.
    + subst name. now rewrite primary_name_first in Hp.
    + now exists i, x.
    + subst name. now rewrite accent_name_first in Ha.
  - intros (i & x & Hin & Heq). right. left.
    apply in_map_iff. now exists (i, x).
Qed.

Lemma sorted_head_darkest (l : list color) (h : color) (t : list color) :
  sorted get_luminance Rltb l = h :: t ->
  In h l /\ forall x, In x l -> (get_luminance h <= get_luminance x)%R.
Proof.
  intros Hs.
  pose proof (sorted_by_luminance l) as Hsorted.
  pose proof (sorted_permutation get_luminance Rltb l) as Hperm.
  rewrite Hs in Hsorted, Hperm. split.
  - apply (Permutation_in h Hperm). now left.
  - intros x Hx. apply (Permutation_in x (Permutation_sym Hperm)) in Hx.
    destruct Hx as [<- | Hx]; [lra|].
    apply StronglySorted_inv in Hsorted. destruct Hsorted as [_ Hall].
    rewrite Forall_forall in Hall. now apply Hall.
Qed.

Lemma sorted_nonempty (l : list color) :
  l <> [] -> exists h t, sorted get_luminance Rltb l = h :: t.
Proof.
  intros Hne. pose proof (sorted_permutation get_luminance Rltb l) as Hperm.
  destruct (sorted get_luminance Rltb l) as [|h t]; [|now exists h, t].
  apply Permutation_nil in Hperm. contradiction.
Qed.

(** The usage example refers to [--color-light-1] and [--color-dark-1]. The
    CSS block declares [light-1] only when the palette has a neutral colour
    and every neutral colour has a luminance above 0.7, and [dark-1] exactly
    when some neutral colour has a luminance below 0.3: the first neutral
    name goes to the darkest neutral colour. *)
Theorem light_1_and_dark_1_declared (cat : categorized) :
  (In "light-1" (map fst (css_entries cat))
   <-> neutral cat <> []
       /\ forall x, In x (neutral cat) -> (0.7 < get_luminance x)%R)
  /\ (In "dark-1" (map fst (css_entries cat))
      <-> exists x, In x (neutral cat) /\ (get_luminance x < 0.3)%R).
Proof.
  split.
  - rewrite neutral_names by discriminate. split.
    + intros (i & x & Hin & Hname).
      apply neutral_name_light in Hname. destruct Hname as [-> Hlight].
      apply enumerate_first in Hin. destruct Hin as [t Hs].
      destruct (sorted_head_darkest _ _ _ Hs) as [Hmem Hmin]. split.
      * intros Hnil. rewrite Hnil in Hmem. destruct Hmem.
      * intros y Hy. specialize (Hmin y Hy). lra.
    + intros [Hne Hall].
      destruct (sorted_nonempty _ Hne) as (h & t & Hs).
      destruct (sorted_head_darkest _ _ _ Hs) as [Hmem _].
      exists 1%nat, h. rewrite Hs. split; [now left|].
      apply neutral_name_light. split; [reflexivity | now apply Hall].
  - rewrite neutral_names by discriminate. split.
    + intros (i & x & Hin & Hname).
      apply neutral_name_dark in Hname. destruct Hname as [-> Hdark].
      apply enumerate_first in Hin. destruct Hin as [t Hs].
      destruct (sorted_head_darkest _ _ _ Hs) as [Hmem _].
      now exists x.
    + intros (x & Hx & Hdark).
      assert (Hne : neutral cat <> []) by (intros E; rewrite E in Hx; destruct Hx).
      destruct (sorted_nonempty _ Hne) as (h & t & Hs).
      destruct (sorted_head_darkest _ _ _ Hs) as [_ Hmin].
      exists 1%nat, h. rewrite Hs. split; [now left|].
      apply neutral_name_dark. split; [reflexivity|].
      specialize (Hmin x Hx). lra.
Qed.

End LightAndDark.

(** ** The two files of a run with [--json] *)

Section Sidecar.
Local Open Scope string_scope.

Lemma replace_from_absent (old new s : string) :
  never_occurs old s -> replace_from old new 0 s = s.
Proof.
  induction s as [|c s IH]; intros Hs; [reflexivity|].
  destruct Hs as [Hhere Hrest].
  cbn [replace_from]. rewrite Hhere. f_equal. now apply IH.
Qed.

(** When [.css] does not occur in the output path, the sidecar path is the
    output path: in a run with [--json] the JSON text is written over the
    CSS text, and the file that was to hold the CSS holds the JSON. *)
Theorem sidecar_overwrites_css
    (extract_palette : string -> Z -> extraction) (args : arguments)
    (colors : list color) :
  extract_palette (image args) (num_colors args) = Returns colors ->
  json args = true ->
  never_occurs ".css" (output args) ->
  json_file args = output args
  /\ file_after (writes (main extract_palette args)) (output args)
     = Some (json_dump (json_output (categorize_colors colors) colors))
  /\ file_after (writes (main extract_palette args)) (output args)
     <> Some (css_text (categorize_colors colors)).
Proof.
  intros Hret Hjson Habsent.
  assert (Hfile : json_file args = output args).
  { unfold json_file, str_replace. now apply replace_from_absent. }
  assert (Hafter :
    file_after (writes (main extract_palette args)) (output args)
    = Some (json_dump (json_output (categorize_colors colors) colors))).
  { rewrite (main_writes extract_palette args colors Hret), Hjson, Hfile.
    cbn [writes file_after]. now rewrite String.eqb_refl. }
  split; [exact Hfile|]. split; [exact Hafter|].
  rewrite Hafter. intros H.
  apply (css_text_is_not_json (categorize_colors colors) (categorize_colors colors)
           colors).
  congruence.
Qed.

Lemma sidecar_overwrites_css_witness :
  json_file (mk_arguments "shot.png" "palette" 8 true) = "palette"
  /\ file_after
       (writes (main (fun _ _ => Returns [(200, 50, 50)])
                  (mk_arguments "shot.png" "palette" 8 true))) "palette"
     = Some (json_dump (json_output (categorize_colors [(200, 50, 50)])
                          [(200, 50, 50)]))
  /\ file_after
       (writes (main (fun _ _ => Returns [(200, 50, 50)])
                  (mk_arguments "shot.png" "palette" 8 true))) "palette"
     <> Some (css_text (categorize_colors [(200, 50, 50)])).
Proof.
  apply (sidecar_overwrites_css (fun _ _ => Returns [(200, 50, 50)])
           (mk_arguments "shot.png" "palette" 8 true) [(200, 50, 50)]).
  - reflexivity.
  - reflexivity.
  - simpl. repeat split.
Defined.

(** When the output path ends in [.css] and holds [.css] nowhere else, a run
    with [--json] leaves two files: the CSS text at the output path and the
    JSON text beside it, at the same path with the extension [.json]. *)
Theorem sidecar_beside_css
    (extract_palette : string -> Z -> extraction) (args : arguments)
    (colors : list color) (stem : string) :
  extract_palette (image args) (num_colors args) = Returns colors ->
  json args = true ->
  output args = stem ++ ".css" ->
  css_only_at_end stem ->
  json_file args = stem ++ ".json"
  /\ file_after (writes (main extract_palette args)) (stem ++ ".css")
     = Some (css_text (categorize_colors colors))
  /\ file_after (writes (main extract_palette args)) (stem ++ ".json")
     = Some (json_dump (json_output (categorize_colors colors) colors)).
Proof.
  intros Hret Hjson Hout Hstem.
  assert (Hfile : json_file args = stem ++ ".json").
  { unfold json_file. rewrite Hout. now apply str_replace_extension. }
  assert (Hdiff : (stem ++ ".json" =? stem ++ ".css") = false).
  { apply String.eqb_neq. intros H.
    apply string_app_inj in H; [|reflexivity]. destruct H as [_ H]. discriminate H. }
  split; [exact Hfile|].
  rewrite (main_writes extract_palette args colors Hret), Hjson, Hfile, Hout.
  cbn [writes file_after]. rewrite Hdiff, !String.eqb_refl. now split.
Qed.

Lemma sidecar_beside_css_witness :
  json_file (mk_arguments "shot.png" "out/palette.css" 8 true) = "out/palette.json"
  /\ file_after
       (writes (main (fun _ _ => Returns [(200, 50, 50)])
                  (mk_arguments "shot.png" "out/palette.css" 8 true)))
       "out/palette.css"
     = Some (css_text (categorize_colors [(200, 50, 50)]))
  /\ file_after
       (writes (main (fun _ _ => Returns [(200, 50, 50)])
                  (mk_arguments "shot.png" "out/palette.css" 8 true)))
       "out/palette.json"
     = Some (json_dump (json_output (categorize_colors [(200, 50, 50)])
                          [(200, 50, 50)])).
Proof.
  apply (sidecar_beside_css (fun _ _ => Returns [(200, 50, 50)])
           (mk_arguments "shot.png" "out/palette.css" 8 true) [(200, 50, 50)]
           "out/palette").
  - reflexivity.
  - reflexivity.
  - reflexivity.
  - simpl. repeat split.
Defined.

(** The arrays of the sidecar: [all_colors] lists the extracted colours in
    their order, and the three bucket arrays together hold the same texts,
    each as often as [all_colors] does. *)
Theorem sidecar_buckets_partition (colors : list color) :
  exists prim neut acc,
    json_output (categorize_colors colors) colors
    = [("primary", prim); ("neutral", neut); ("accent", acc);
       ("all_colors", map rgb_to_hex colors)]
    /\ Permutation (prim ++ neut ++ acc)%list (map rgb_to_hex colors)
    /\ (List.length prim <= 2)%nat.
Proof.
  exists (map rgb_to_hex (primary (categorize_colors colors))),
         (map rgb_to_hex (neutral (categorize_colors colors))),
         (map rgb_to_hex (accent (categorize_colors colors))).
  split; [reflexivity|]. split.
  - rewrite <- !map_app. apply Permutation_map.
    apply (categorize_from_permutation colors empty_categorized).
  - rewrite length_map. apply primary_length_from. simpl. lia.
Qed.

End Sidecar.

(** ** Stability of the order of the neutral lines *)

Section Stability.
Local Open Scope R_scope.

Lemma insert_before_larger (x : color) (l : list color) :
  Forall (luminance_le x) l ->
  insert_by_key get_luminance Rltb x l = x :: l.
Proof.
  intros Hall. destruct l as [|y ys]; [reflexivity|].
  apply Forall_inv in Hall. unfold luminance_le in Hall.
  cbn [insert_by_key]. now rewrite (proj2 (Rltb_false _ _) Hall).
Qed.

Lemma filter_insert_by_key (p : color -> bool) (x : color) (l : list color) :
  StronglySorted luminance_le l ->
  filter p (insert_by_key get_luminance Rltb x l)
  = if p x then insert_by_key get_luminance Rltb x (filter p l) else filter p l.
Proof.
  induction 1 as [|y ys Hys IH Hall].
  - cbn [insert_by_key filter]. now destruct (p x).
  - cbn [insert_by_key].
    destruct (Rltb (get_luminance y) (get_luminance x)) eqn:E.
    + cbn [filter]. rewrite IH.
      destruct (p y), (p x); try reflexivity.
      cbn [insert_by_key]. now rewrite E.
    + apply Rltb_false in E. cbn [filter].
      destruct (p x); [|reflexivity].
      rewrite insert_before_larger; [reflexivity|].
      assert (Hx : Forall (luminance_le x) (y :: ys)).
      { constructor; [exact E|].
        eapply Forall_impl; [|exact Hall].
        intros z Hz. unfold luminance_le in *. lra. }
      apply (incl_Forall (incl_filter p (y :: ys))) in Hx. exact Hx.
Qed.

Lemma filter_sorted (p : color -> bool) (l : list color) :
  filter p (sorted get_luminance Rltb l)
  = sorted get_luminance Rltb (filter p l).
Proof.
  induction l as [|x xs IH]; [reflexivity|].
  cbn [sorted fold_right]. fold (sorted get_luminance Rltb xs).
  rewrite filter_insert_by_key by apply sorted_by_luminance.
  cbn [filter]. destruct (p x); rewrite IH; reflexivity.
Qed.

(** Sorting by luminance is stable: the neutral colours of one luminance
    come out in the order in which they went in. *)
Theorem sorted_keeps_order_of_equals (l : list color) (k : R) :
  filter (has_luminance k) (sorted get_luminance Rltb l)
  = filter (has_luminance k) l.
Proof.
  rewrite filter_sorted. apply sorted_of_sorted.
  induction l as [|x xs IH]; cbn [filter]; [constructor|].
  destruct (has_luminance k x) eqn:Ex; [|exact IH].
  constructor; [exact IH|].
  destruct (filter (has_luminance k) xs) as [|y ys] eqn:Ef; constructor.
  assert (Hy : has_luminance k y = true).
  { assert (Hin : In y (filter (has_luminance k) xs)) by (rewrite Ef; now left).
    now apply filter_In in Hin. }
  unfold has_luminance in Ex, Hy. unfold key_le.
  destruct (Req_dec_T (get_luminance x) k); [|discriminate].
  destruct (Req_dec_T (get_luminance y) k); [|discriminate].
  apply Rltb_false. lra.
Qed.

End Stability.


(** ** The gray ramp in binary64 *)

Lemma lower_power_certified : lower_power_ok = true.
Proof. vm_compute. reflexivity. Qed.

Lemma gray_table_checked : all_lighter_above gray_table = true.
Proof. vm_compute. reflexivity. Qed.

Lemma get_luminance64_gray (pow : float -> float -> float) (v : Z) :
  get_luminance64 pow (v, v, v) = gray_weight (linearize64 pow (gray_level v)).
Proof. reflexivity. Qed.

Lemma gray_luminance_candidate (pow : float -> float -> float) (v : Z) :
  pow_accurate_on_ramp pow -> 0 <= v <= 255 ->
  In (get_luminance64 pow (v, v, v)) (gray_candidates v).
Proof.
  intros Hpow Hv. rewrite get_luminance64_gray.
  unfold gray_candidates, linearize64.
  destruct (gray_level v <=? 0.03928)%float eqn:E.
  - now left.
  - apply in_map. now apply Hpow.
Qed.

Lemma gray_table_entry (v : Z) :
  0 <= v <= 255 -> In (v, gray_candidates v) gray_table.
Proof.
  intros Hv. unfold gray_table.
  apply (in_map (fun v => (v, gray_candidates v))).
  now apply channel_values_complete.
Qed.

Lemma all_lighter_above_spec (table : list (Z * list float))
    (darker lighter : Z * list float) (a b : float) :
  all_lighter_above table = true ->
  In darker table -> In lighter table -> fst darker < fst lighter ->
  In a (snd darker) -> In b (snd lighter) ->
  PrimFloat.ltb a b = true.
Proof.
  unfold all_lighter_above. intros T Hd Hl Hlt Ha Hb.
  rewrite forallb_forall in T. specialize (T darker Hd).
  rewrite forallb_forall in T. specialize (T lighter Hl).
  rewrite (proj2 (Z.ltb_lt _ _) Hlt) in T. cbn [implb] in T.
  rewrite forallb_forall in T. specialize (T a Ha).
  rewrite forallb_forall in T. exact (T b Hb).
Qed.

(** C8: in binary64, with a [pow] that is accurate on the gray ramp, relative
    luminance is strictly increasing on the ramp: for integers
    [0 <= v1 < v2 <= 255] the luminance of [(v1, v1, v1)] is below that of
    [(v2, v2, v2)]. *)
Theorem gray_ramp_increasing_binary64
    (pow : float -> float -> float) (v1 v2 : Z) :
  pow_accurate_on_ramp pow ->
  0 <= v1 -> v1 < v2 -> v2 <= 255 ->
  PrimFloat.ltb (get_luminance64 pow (v1, v1, v1)) (get_luminance64 pow (v2, v2, v2))
  = true.
Proof.
  intros Hpow H0 Hlt H255.
  apply (all_lighter_above_spec gray_table
           (v1, gray_candidates v1) (v2, gray_candidates v2)).
  - exact gray_table_checked.
  - apply gray_table_entry. lia.
  - apply gray_table_entry. lia.
  - exact Hlt.
  - apply gray_luminance_candidate; [exact Hpow | lia].
  - apply gray_luminance_candidate; [exact Hpow | lia].
Qed.

Lemma gray_ramp_increasing_binary64_witness :
  PrimFloat.ltb
    (get_luminance64 (fun x _ => lower_power x) (10, 10, 10))
    (get_luminance64 (fun x _ => lower_power x) (11, 11, 11))
  = true.
Proof.
  apply (gray_ramp_increasing_binary64 (fun x _ => lower_power x) 10 11).
  - intros v _ _. unfold near_powers. simpl. tauto.
  - lia.
  - lia.
  - lia.
Defined.

(** ** [extract_palette] *)

Lemma all_some_map {A : Type} (l : list (option A)) (r : list A) :
  all_some l = Some r -> l = map Some r.
Proof.
  revert r. induction l as [|[x|] rest IH]; intros r H; simpl in H.
  - now injection H as <-.
  - destruct (all_some rest) as [r'|]; [|discriminate].
    injection H as <-. simpl. f_equal. now apply IH.
  - discriminate.
Qed.

Lemma all_some_Forall2 {A B : Type} (f : A -> option B) (l : list A) (r : list B) :
  all_some (map f l) = Some r -> Forall2 (fun a b => f a = Some b) l r.
Proof.
  revert r. induction l as [|a l IH]; intros r H; simpl in H.
  - injection H as <-. constructor.
  - destruct (f a) as [b|] eqn:Ea; [|discriminate].
    destruct (all_some (map f l)) as [r'|]; [|discriminate].
    injection H as <-. constructor; [exact Ea | now apply IH].
Qed.

Lemma sort_by_count_permutation (color_freq : list (centre * nat)) :
  Permutation (sort_by_count color_freq) color_freq.
Proof. apply sorted_permutation. Qed.

Lemma sort_by_count_descending (color_freq : list (centre * nat)) :
  StronglySorted (fun a b => (snd b <= snd a)%nat) (sort_by_count color_freq).
Proof.
  apply Sorted_StronglySorted; [intros x y z Hxy Hyz; lia|].
  pose proof (sorted_is_sorted (@snd centre nat) (fun a b => (b <? a)%nat)) as S.
  assert (Hasym : forall a b : nat, (b <? a)%nat = true -> (a <? b)%nat = false).
  { intros a b H. apply Nat.ltb_lt in H. apply Nat.ltb_ge. lia. }
  specialize (S Hasym color_freq). fold (sort_by_count color_freq) in S.
  induction S as [|a l _ IH Hhd]; constructor; [exact IH|].
  destruct Hhd as [|b l Hab]; constructor.
  unfold key_le in Hab. apply Nat.ltb_ge in Hab. exact Hab.
Qed.

Lemma filter_insert_by_count (p : centre * nat -> bool) (x : centre * nat)
    (l : list (centre * nat)) :
  StronglySorted (fun a b => (snd b <= snd a)%nat) l ->
  filter p (insert_by_key (@snd centre nat) (fun a b => (b <? a)%nat) x l)
  = if p x
    then insert_by_key (@snd centre nat) (fun a b => (b <? a)%nat) x (filter p l)
    else filter p l.
Proof.
  induction 1 as [|y ys Hys IH Hall].
  - cbn [insert_by_key filter]. now destruct (p x).
  - cbn [insert_by_key]. destruct (snd x <? snd y)%nat eqn:E.
    + cbn [filter]. rewrite IH.
      destruct (p y), (p x); try reflexivity.
      cbn [insert_by_key]. now rewrite E.
    + apply Nat.ltb_ge in E.
      change (filter p (x :: y :: ys))
        with (if p x then x :: filter p (y :: ys) else filter p (y :: ys)).
      destruct (p x); [|reflexivity].
      assert (Hx : Forall (fun z => (snd z <= snd x)%nat) (y :: ys)).
      { constructor; [exact E|].
        eapply Forall_impl; [|exact Hall]. intros z Hz. cbn beta in Hz. lia. }
      apply (incl_Forall (incl_filter p (y :: ys))) in Hx.
      destruct (filter p (y :: ys)) as [|z zs]; [reflexivity|].
      apply Forall_inv in Hx. cbn [insert_by_key].
      now rewrite (proj2 (Nat.ltb_ge _ _) Hx).
Qed.

Lemma filter_sort_by_count (p : centre * nat -> bool) (l : list (centre * nat)) :
  filter p (sort_by_count l) = sort_by_count (filter p l).
Proof.
  unfold sort_by_count. induction l as [|x xs IH]; [reflexivity|].
  cbn [sorted fold_right].
  fold (sorted (@snd centre nat) (fun a b => (b <? a)%nat) xs).
  rewrite filter_insert_by_count by apply sort_by_count_descending.
  cbn [filter]. destruct (p x); rewrite IH; reflexivity.
Qed.

Lemma sort_by_count_stable (l : list (centre * nat)) (k : nat) :
  filter (fun cf => (snd cf =? k)%nat) (sort_by_count l)
  = filter (fun cf => (snd cf =? k)%nat) l.
Proof.
  rewrite filter_sort_by_count. apply sorted_of_sorted.
  induction l as [|x xs IH]; cbn [filter]; [constructor|].
  destruct (snd x =? k)%nat eqn:Ex; [|exact IH].
  constructor; [exact IH|].
  destruct (filter (fun cf => (snd cf =? k)%nat) xs) as [|y ys] eqn:Ef; constructor.
  assert (Hy : (snd y =? k)%nat = true).
  { assert (Hin : In y (filter (fun cf => (snd cf =? k)%nat) xs))
      by (rewrite Ef; now left).
    now apply filter_In in Hin. }
  apply Nat.eqb_eq in Ex, Hy. unfold key_le. apply Nat.ltb_ge. lia.
Qed.

Lemma drop_pixels_both (pixels : list color) :
  drop_pixels (0, 0, 0) (drop_pixels (255, 255, 255) pixels)
  = filter (fun p => negb (color_eqb p (255, 255, 255))
                     && negb (color_eqb p (0, 0, 0))) pixels.
Proof.
  unfold drop_pixels. induction pixels as [|p ps IH]; [reflexivity|].
  cbn [filter]. destruct (negb (color_eqb p (255, 255, 255))); cbn [filter andb].
  - destruct (negb (color_eqb p (0, 0, 0))); now rewrite IH.
  - exact IH.
Qed.

(** When [extract_palette] returns colours: the libraries were imported and
    the image loaded; the clustering was run on the pixels of the image that
    are neither pure white nor pure black, in their order; entry [i] of
    [color_freq] pairs centre [i] with the number of labels equal to [i];
    and the colours returned are the truncated centres in the one order that
    has the counts never increasing and, among equal counts, the centres in
    the order of their indices. *)
Theorem extract_palette_ranks_clusters
    (libraries_installed : bool)
    (load_pixels : string -> option (list color))
    (kmeans_fit : Z -> list color -> option kmeans)
    (image_path : string) (num_colors : Z) (colors : list color) :
  extract_palette libraries_installed load_pixels kmeans_fit image_path num_colors
  = Returns colors ->
  exists pixels km color_freq ranked,
    libraries_installed = true
    /\ load_pixels image_path = Some pixels
    /\ kmeans_fit num_colors
         (filter (fun p => negb (color_eqb p (255, 255, 255))
                           && negb (color_eqb p (0, 0, 0))) pixels)
       = Some km
    /\ Forall2
         (fun i cf =>
            nth_error (cluster_centers_ km) i = Some (fst cf)
            /\ snd cf = count_occ Z.eq_dec (labels_ km) (Z.of_nat i))
         (seq 0 (Z.to_nat num_colors)) color_freq
    /\ Permutation ranked color_freq
    /\ StronglySorted (fun a b => (snd b <= snd a)%nat) ranked
    /\ (forall k, filter (fun cf => (snd cf =? k)%nat) ranked
                  = filter (fun cf => (snd cf =? k)%nat) color_freq)
    /\ map (fun cf => int_tuple (fst cf)) ranked = map Some colors.
Proof.
  unfold extract_palette. intros H.
  destruct libraries_installed; cbn [negb] in H; [|discriminate].
  destruct (load_pixels image_path) as [pixels|]; [|discriminate].
  rewrite drop_pixels_both in H.
  destruct (kmeans_fit num_colors _) as [km|] eqn:Ekm; [|discriminate].
  destruct (color_freq_of km num_colors) as [color_freq|] eqn:Ecf; [|discriminate].
  destruct (all_some (map _ (sort_by_count color_freq))) as [cs|] eqn:Eint;
    [|discriminate].
  injection H as <-.
  exists pixels, km, color_freq, (sort_by_count color_freq).
  split; [reflexivity|]. split; [reflexivity|]. split; [exact Ekm|]. split.
  - unfold color_freq_of in Ecf. apply all_some_Forall2 in Ecf.
    eapply Forall2_impl; [|exact Ecf].
    intros i cf Hi. cbn beta in Hi.
    destruct (nth_error (cluster_centers_ km) i) as [c|]; [|discriminate].
    cbn [option_map] in Hi. injection Hi as <-. now split.
  - split; [apply sort_by_count_permutation|].
    split; [apply sort_by_count_descending|].
    split; [intros k; apply sort_by_count_stable|].
    now apply all_some_map.
Qed.

Lemma extract_palette_ranks_clusters_witness :
  exists pixels km color_freq ranked,
    true = true
    /\ Some [(255, 255, 255); (241, 240, 240); (200, 50, 50); (0, 0, 0); (201, 51, 50)]
       = Some pixels
    /\ Some (mk_kmeans [(241, 240, 240); (200.5, 50.5, 50)]%float [0; 1; 1]) = Some km
    /\ Forall2
         (fun i cf =>
            nth_error (cluster_centers_ km) i = Some (fst cf)
            /\ snd cf = count_occ Z.eq_dec (labels_ km) (Z.of_nat i))
         (seq 0 (Z.to_nat 2)) color_freq
    /\ Permutation ranked color_freq
    /\ StronglySorted (fun a b => (snd b <= snd a)%nat) ranked
    /\ (forall k, filter (fun cf => (snd cf =? k)%nat) ranked
                  = filter (fun cf => (snd cf =? k)%nat) color_freq)
    /\ map (fun cf => int_tuple (fst cf)) ranked
       = map Some [(200, 50, 50); (241, 240, 240)].
Proof.
  apply (extract_palette_ranks_clusters true
           (fun _ => Some [(255, 255, 255); (241, 240, 240); (200, 50, 50);
                           (0, 0, 0); (201, 51, 50)])
           (fun _ _ => Some (mk_kmeans [(241, 240, 240); (200.5, 50.5, 50)]%float
                               [0; 1; 1]))
           "shot.png"%string 2).
  vm_compute. reflexivity.
Defined.

(** ** The script as a process *)





